(** * typedbuffer: an order-preserving typed byte encoding

    A shallow embedding of [typedbuffer.go] (package [typedbuffer]) and the
    properties of its encoders and of its decoder.

    Conventions of the embedding:
    - a Go [byte] is a [Init.Byte.byte]; [byte.of_Z] is the conversion
      [byte(x)] (it keeps the low 8 bits) and [byte.unsigned] reads it back;
    - [int], [int64] and [uint64] are [Z]; the wrap-around of the 64-bit
      operations the code performs is written out ([to_uint64], [to_int64]);
    - a [[]byte] is a [list byte]; indexing and slicing outside the bounds
      panic, as they do in Go;
    - a Go function that can panic returns an [outcome]. *)

From Stdlib Require Import String ZArith List Lia Bool.
From Equations Require Import Equations.
From coqutil Require Import Byte.
Import ListNotations.
Local Open Scope Z_scope.

(** ** Panics *)

Inductive outcome (A : Type) : Type :=
| Returns (a : A)
| Panics (msg : string).
Arguments Returns {A} a.
Arguments Panics {A} msg.

Definition bind {A B : Type} (m : outcome A) (k : A -> outcome B) : outcome B :=
  match m with
  | Returns a => k a
  | Panics msg => Panics msg
  end.

Notation "x <- m ;; k" := (bind m (fun x => k))
  (at level 61, m at next level, right associativity).

(** ** Machine integers and slices *)

Module Go.

(** [uint64(x)]: the low 64 bits, read unsigned. *)
Definition to_uint64 (x : Z) : Z := x mod 2 ^ 64.

(** [int64(x)]: the low 64 bits, read in two's complement. *)
Definition to_int64 (x : Z) : Z := (x + 2 ^ 63) mod 2 ^ 64 - 2 ^ 63.

Definition is_int64 (x : Z) : Prop := - 2 ^ 63 <= x < 2 ^ 63.
Definition is_uint64 (x : Z) : Prop := 0 <= x < 2 ^ 64.

(** [len(s)] *)
Definition len (s : list byte) : Z := Z.of_nat (length s).

(** [s[i]] *)
Definition index (s : list byte) (i : Z) : outcome byte :=
  if (0 <=? i) && (i <? len s)
  then Returns (nth (Z.to_nat i) s Byte.x00)
  else Panics "index out of range"%string.

(** [s[lo:hi]]; the model panics as soon as [hi] exceeds the length, which
    is at least as often as Go does (Go allows [hi] up to the capacity). *)
Definition slice (s : list byte) (lo hi : Z) : outcome (list byte) :=
  if (0 <=? lo) && (lo <=? hi) && (hi <=? len s)
  then Returns (firstn (Z.to_nat (hi - lo)) (skipn (Z.to_nat lo) s))
  else Panics "slice bounds out of range"%string.

(** [s[lo:]] *)
Definition slice_from (s : list byte) (lo : Z) : outcome (list byte) :=
  slice s lo (len s).

(** [bytes.Compare] of the Go standard library: unsigned lexicographic
    comparison of two byte slices. *)
Fixpoint Compare (a b : list byte) : comparison :=
  match a, b with
  | [], [] => Eq
  | [], _ :: _ => Lt
  | _ :: _, [] => Gt
  | x :: a', y :: b' =>
      match byte.unsigned x ?= byte.unsigned y with
      | Eq => Compare a' b'
      | c => c
      end
  end.

End Go.

(** ** Constants *)

Definition BB_POSITIVE : Z := 0x80.
Definition BB_NEGATIVE : Z := 0x00.
Definition BB_TYPE_MASK : Z := 0xF0.

Definition BB_NIL_FIRST : Z := 0x00.
Definition BB_NIL_LAST : Z := 0xFF.

Definition BB_BOOLEAN : Z := 0x0E.
Definition BB_BOOLEAN_FALSE : Z := Z.lor BB_BOOLEAN 0.
Definition BB_BOOLEAN_TRUE : Z := Z.lor BB_BOOLEAN 1.

Definition BB_BYTES : Z := 0x10.
Definition BB_BYTES_LEN_1 : Z := 0x4D.
Definition BB_BYTES_LEN_2 : Z := 0x4E.
Definition BB_BYTES_LEN_4 : Z := 0x4E.

Definition BB_DATE : Z := 0x50.
Definition BB_COMPACT_DATE : Z := 0x54.
Definition BB_POSITIVE_DATE : Z := Z.lor BB_COMPACT_DATE BB_POSITIVE.
Definition BB_NEGATIVE_DATE : Z := Z.lor BB_COMPACT_DATE BB_NEGATIVE.

Definition BB_INT : Z := 0x60.
Definition BB_INT_POSITIVE_VALUE : Z := Z.lor (Z.lor BB_INT BB_POSITIVE) 0x08.
Definition BB_INT_NEGATIVE_VALUE : Z := Z.lor BB_INT BB_NEGATIVE.
Definition BB_SMALL_POSITIVE : Z := Z.lor BB_INT BB_POSITIVE.
Definition BB_SMALL_NEGATIVE : Z := Z.lor (Z.lor BB_INT BB_NEGATIVE) 0x08.

Definition BB_INT_MASK : Z := BB_INT_POSITIVE_VALUE.

Definition SMALL_NEGATIVE_INT : Z := -8.
Definition SMALL_POSITIVE_INT : Z := 7.
Definition SMALL_INT_MASK : Z := 0x07.
Definition SMALL_NEG_MASK : Z := Z.lnot SMALL_INT_MASK.

Definition MIN_SMALL_POSITIVE : Z := Z.lor BB_SMALL_POSITIVE (Z.land 0 SMALL_INT_MASK).
Definition MAX_SMALL_POSITIVE : Z :=
  Z.lor BB_SMALL_POSITIVE (Z.land SMALL_POSITIVE_INT SMALL_INT_MASK).
Definition MIN_SMALL_NEGATIVE : Z :=
  Z.lor BB_SMALL_NEGATIVE (Z.land SMALL_NEGATIVE_INT SMALL_INT_MASK).
Definition MAX_SMALL_NEGATIVE : Z := Z.lor BB_SMALL_NEGATIVE (Z.land (-1) SMALL_INT_MASK).

Definition BB_DOUBLE : Z := 0x70.
Definition BB_DOUBLE_NAN : Z := Z.lor BB_DOUBLE BB_POSITIVE + 0x03.
Definition BB_DOUBLE_POSITIVE_INFINITY : Z := Z.lor BB_DOUBLE BB_POSITIVE + 0x02.
Definition BB_DOUBLE_POSITIVE_ZERO : Z := Z.lor BB_DOUBLE BB_POSITIVE + 0x00.
Definition BB_DOUBLE_POSITIVE_VALUE : Z := Z.lor BB_DOUBLE BB_POSITIVE + 0x01.
Definition BB_DOUBLE_NEGATIVE_ZERO : Z := Z.lor BB_DOUBLE BB_NEGATIVE + 0x02.
Definition BB_DOUBLE_NEGATIVE_VALUE : Z := Z.lor BB_DOUBLE BB_NEGATIVE + 0x01.
Definition BB_DOUBLE_NEGATIVE_INFINITY : Z := Z.lor BB_DOUBLE BB_NEGATIVE + 0x00.

Definition BB_UINT : Z := 0x80.
Definition BB_UINT_VAR : Z := 0x90.
Definition BB_UINT_MASK : Z := 0xE0.

Definition SMALL_UINT : Z := 16.
Definition SMALL_UINT_MASK : Z := 0x1F.

Definition MIN_SMALL_UINT : Z := BB_UINT.
Definition MAX_SMALL_UINT : Z := BB_UINT + SMALL_UINT.

(** ** Package variables

    [True_] and [False_] are the slices [True] and [False] of the package. *)

Definition NilFirst : list byte := [byte.of_Z BB_NIL_FIRST].
Definition NilLast : list byte := [byte.of_Z BB_NIL_LAST].

Definition True_ : list byte := [byte.of_Z BB_BOOLEAN_TRUE].
Definition False_ : list byte := [byte.of_Z BB_BOOLEAN_FALSE].

Definition Zero : list byte := [byte.of_Z (Z.lor BB_SMALL_POSITIVE 0)].
Definition One : list byte := [byte.of_Z (Z.lor BB_SMALL_POSITIVE 1)].
Definition MinusOne : list byte :=
  [byte.of_Z (Z.lor BB_SMALL_NEGATIVE (Z.land (-1) SMALL_INT_MASK))].
Definition SmallNegative : list byte :=
  [byte.of_Z (Z.lor BB_SMALL_NEGATIVE (Z.land SMALL_NEGATIVE_INT SMALL_INT_MASK))].

Definition Bytes1 : list byte := [byte.of_Z BB_BYTES_LEN_1].
Definition Bytes2 : list byte := [byte.of_Z BB_BYTES_LEN_2].
Definition Bytes4 : list byte := [byte.of_Z BB_BYTES_LEN_4].

Inductive error : Type :=
| NoEncoding
| EmptyBufferError
| CorruptedBufferError.

(** ** Values

    The dynamic values an [interface{}] holds on the way into [Encode] and
    out of [Decode]. [GoOther] stands for a value of any other dynamic type
    ([float64], [uint], a struct, ...). *)

Inductive value : Type :=
| GoNil
| GoBool (b : bool)
| GoInt (i : Z)
| GoInt64 (i : Z)
| GoUint64 (u : Z)
| GoUint64s (us : list Z)
| GoBytes (bb : list byte)
| GoString (s : list byte)
| GoOther.

(** ** Encoders *)

Definition EncodeBool (b : bool) : list byte :=
  if b then True_ else False_.

Definition EncodeNil (first : bool) : list byte :=
  if first then NilFirst else NilLast.

(** The two scanning loops of [compactInt64] and [compactUint64]:
    [for ; bits > 0; bits -= 8 { if stop(bits) { break } }]; the result is
    the value of [bits] on leaving the loop. *)
Equations scan_bits (stop : Z -> bool) (bits : Z) : Z by wf (Z.to_nat bits) lt :=
  scan_bits stop bits with Z_gt_dec bits 0 := {
    | left _ => if stop bits then bits else scan_bits stop (bits - 8)
    | right _ => bits }.
Next Obligation. lia. Qed.

(** The emitting loop:
    [for ; bits >= 0; bits -= 8 { bb = append(bb, byte(v>>uint(bits))) }]. *)
Equations emit_bytes (v bits : Z) (bb : list byte) : list byte
  by wf (Z.to_nat (bits + 8)) lt :=
  emit_bytes v bits bb with Z_ge_dec bits 0 := {
    | left _ => emit_bytes v (bits - 8) (bb ++ [byte.of_Z (Z.shiftr v bits)])
    | right _ => bb }.
Next Obligation. lia. Qed.

Definition compactInt64 (v : Z) (typ : byte) : list byte :=
  let bb := [] in
  let bits := 64 - 8 in
  if Z.land (byte.unsigned typ) BB_TYPE_MASK =? BB_INT_NEGATIVE_VALUE then
    let bits := scan_bits (fun bits => negb (Z.land (Z.shiftr v bits) 0xff =? 0xff)) bits in
    let bb := bb ++ [byte.of_Z
                       (byte.unsigned typ
                        + byte.unsigned
                            (byte.of_Z (7 - byte.unsigned (byte.of_Z (Z.quot bits 8)))))] in
    emit_bytes v bits bb
  else
    let bits := scan_bits (fun bits => negb (Z.shiftr v bits =? 0)) bits in
    let bb := bb ++ [byte.of_Z (byte.unsigned typ + byte.unsigned (byte.of_Z (Z.quot bits 8)))] in
    emit_bytes v bits bb.

Definition uncompactInt64 (bb : list byte) (positive : bool) : Z :=
  let l := if negb positive then -1 else 0 in
  fold_left (fun l b => Go.to_int64 (Z.lor (Go.to_int64 (Z.shiftl l 8)) (byte.unsigned b))) bb l.

Definition compactUint64 (u : Z) : list byte :=
  let bb := [] in
  let bits := 64 - 8 in
  let bits := scan_bits (fun bits => negb (Z.shiftr u bits =? 0)) bits in
  let bb := bb ++ [byte.of_Z (BB_UINT_VAR + byte.unsigned (byte.of_Z (Z.quot bits 8)) + 1)] in
  emit_bytes u bits bb.

Definition uncompactUint64 (bb : list byte) : Z :=
  fold_left (fun l b => Go.to_uint64 (Z.lor (Go.to_uint64 (Z.shiftl l 8)) (byte.unsigned b))) bb 0.

Definition EncodeInt64 (i : Z) : list byte :=
  if i <? SMALL_NEGATIVE_INT then
    compactInt64 (Go.to_uint64 i) (byte.of_Z BB_INT_NEGATIVE_VALUE)
  else if i >? SMALL_POSITIVE_INT then
    compactInt64 (Go.to_uint64 i) (byte.of_Z BB_INT_POSITIVE_VALUE)
  else if i >=? 0 then
    [byte.of_Z (BB_SMALL_POSITIVE + byte.unsigned (byte.of_Z (Z.land i SMALL_INT_MASK)))]
  else
    [byte.of_Z (BB_SMALL_NEGATIVE + byte.unsigned (byte.of_Z (Z.land i SMALL_INT_MASK)))].

Definition EncodeUint64 (u : Z) : list byte :=
  if u <=? SMALL_UINT then
    [byte.of_Z (BB_UINT + byte.unsigned (byte.of_Z u))]
  else
    compactUint64 u.

(** [int] is 64 bits wide (the constant [65851 + 0xffffffff] of [EncodeBytes]
    does not fit a 32-bit [int]), so [int64(i)] and [uint64(u)] keep the value. *)
Definition EncodeInt (i : Z) : list byte := EncodeInt64 (Go.to_int64 i).
Definition EncodeUint (u : Z) : list byte := EncodeUint64 (Go.to_uint64 u).

(** [append(Bytes1, ...)] allocates: the package slices have no spare
    capacity, so they are never written through. *)
Definition EncodeBytes (bb : list byte) : outcome (list byte) :=
  let l := Go.len bb in
  if l <=? 60 then
    let b := [byte.of_Z (Z.lor BB_BYTES (byte.unsigned (byte.of_Z l)))] in
    Returns (b ++ bb)
  else if l <=? 61 + 0xff then
    let l := l - 61 in
    let b := Bytes1 ++ [byte.of_Z l] in
    Returns (b ++ bb)
  else if l <=? 317 + 0xffff then
    let l := l - 317 in
    let b := Bytes2 ++ [byte.of_Z (Z.shiftr l 8); byte.of_Z (Z.shiftr l 0)] in
    Returns (b ++ bb)
  else if l <=? 65851 + 0xffffffff then
    let l := l - 65851 in
    let b := Bytes4 ++ [byte.of_Z (Z.shiftr l 24); byte.of_Z (Z.shiftr l 16);
                        byte.of_Z (Z.shiftr l 8); byte.of_Z (Z.shiftr l 0)] in
    Returns (b ++ bb)
  else
    Panics "slice too long"%string.

(** [Encode] and [EncodeNils] return [([]byte, error)]; a nil slice is the
    empty list. The loop body of [EncodeNils] for one value [v], appending
    to [b]: [inr] is the [return nil, NoEncoding] of the default case. *)
Definition EncodeNils_step (nilFirst : bool) (b : list byte) (v : value)
  : outcome (list byte + error) :=
  match v with
  | GoNil => Returns (inl (b ++ EncodeNil nilFirst))
  | GoBool t => Returns (inl (b ++ EncodeBool t))
  | GoInt t => Returns (inl (b ++ EncodeInt t))
  | GoInt64 t => Returns (inl (b ++ EncodeInt64 t))
  | GoUint64 t => Returns (inl (b ++ EncodeUint64 t))
  | GoUint64s t => Returns (inl (fold_left (fun b u => b ++ EncodeUint64 u) t b))
  | GoBytes t => e <- EncodeBytes t ;; Returns (inl (b ++ e))
  | GoString t => e <- EncodeBytes t ;; Returns (inl (b ++ e))
  | GoOther => Returns (inr NoEncoding)
  end.

Fixpoint EncodeNils_loop (nilFirst : bool) (values : list value) (b : list byte)
  : outcome (list byte * option error) :=
  match values with
  | [] => Returns (b, None)
  | v :: values' =>
      r <- EncodeNils_step nilFirst b v ;;
      match r with
      | inl b' => EncodeNils_loop nilFirst values' b'
      | inr err => Returns ([], Some err)
      end
  end.

Definition EncodeNils (nilFirst : bool) (values : list value)
  : outcome (list byte * option error) :=
  EncodeNils_loop nilFirst values [].

Definition Encode (values : list value) : outcome (list byte * option error) :=
  EncodeNils true values.

(** ** The decoder *)

(** [Decode] returns [(interface{}, []byte, error)]. *)
Definition decoded : Type := value * list byte * option error.

(** [return nil, nil, CorruptedBufferError] *)
Definition corrupted : outcome decoded := Returns (GoNil, [], Some CorruptedBufferError).

(** [return v(next[0:n]), next[n:], nil] *)
Definition take (mk : list byte -> value) (next : list byte) (n : Z) : outcome decoded :=
  p <- Go.slice next 0 n ;;
  rest <- Go.slice_from next n ;;
  Returns (mk p, rest, None).

Definition Decode (b : list byte) : outcome decoded :=
  if Go.len b =? 0 then Returns (GoNil, [], Some EmptyBufferError) else
  k <- Go.index b 0 ;;
  next <- Go.slice_from b 1 ;;
  let k := byte.unsigned k in
  if (k =? BB_NIL_FIRST) || (k =? BB_NIL_LAST) then
    Returns (GoNil, next, None)
  else if k =? BB_BOOLEAN_FALSE then
    Returns (GoBool false, next, None)
  else if k =? BB_BOOLEAN_TRUE then
    Returns (GoBool true, next, None)
  else if (k >=? BB_BYTES) && (k <? BB_BYTES_LEN_1) then
    let k := byte.unsigned (byte.of_Z (k - BB_BYTES)) in
    if Go.len next <? k then corrupted else
    take GoBytes next k
  else if k =? BB_BYTES_LEN_1 then
    if Go.len next <? 1 then corrupted else
    k <- Go.index next 0 ;;
    next <- Go.slice_from next 1 ;;
    let n := byte.unsigned k + 62 in
    if Go.len next <? n then corrupted else
    take GoBytes next n
  else if k =? BB_BYTES_LEN_2 then
    if Go.len next <? 2 then corrupted else
    k1 <- Go.index next 0 ;;
    k2 <- Go.index next 1 ;;
    next <- Go.slice_from next 2 ;;
    let n := byte.unsigned k1 * 256 + byte.unsigned k2 + 318 in
    if Go.len next <? n then corrupted else
    take GoBytes next n
  else if (k >=? MIN_SMALL_POSITIVE) && (k <=? MAX_SMALL_POSITIVE) then
    Returns (GoInt64 (Z.land k SMALL_INT_MASK), next, None)
  else if (k >=? MIN_SMALL_NEGATIVE) && (k <=? MAX_SMALL_NEGATIVE) then
    Returns (GoInt64 (Z.lor (Z.land k SMALL_INT_MASK) SMALL_NEG_MASK), next, None)
  else if Z.land k BB_INT_MASK =? BB_INT_POSITIVE_VALUE then
    let n := Z.land k 7 + 1 in
    if Go.len next <? n then corrupted else
    take (fun p => GoInt64 (uncompactInt64 p true)) next n
  else if Z.land k BB_INT_MASK =? BB_INT_NEGATIVE_VALUE then
    let n := 8 - Z.land k 7 in
    if Go.len next <? n then corrupted else
    take (fun p => GoInt64 (uncompactInt64 p false)) next n
  else if (k >=? MIN_SMALL_UINT) && (k <=? MAX_SMALL_UINT) then
    Returns (GoUint64 (Z.land k SMALL_UINT_MASK), next, None)
  else if Z.land k BB_UINT_MASK =? BB_UINT then
    let n := Z.land k 15 in
    if (n =? 0) || (n >? 8) || (Go.len next <? n) then corrupted else
    take (fun p => GoUint64 (uncompactUint64 p)) next n
  else
    corrupted.

(** *** Termination of [DecodeAll]

    The loop of [DecodeAll] ends because a successful [Decode] consumes at
    least the tag byte; the facts about slices that show it come first. *)

Ltac case_if :=
  match goal with
  | H : context [if ?c then _ else _] |- _ => destruct c eqn:?
  | |- context [if ?c then _ else _] => destruct c eqn:?
  end.

(** Settles a boolean comparison on [Z] by the order it decides. *)
Ltac zbool :=
  match goal with
  | |- true = _ => symmetry
  | |- false = _ => symmetry
  | _ => idtac
  end;
  rewrite ?Z.gtb_ltb, ?Z.geb_leb;
  first [ apply Z.ltb_lt; lia | apply Z.ltb_ge; lia
        | apply Z.leb_le; lia | apply Z.leb_gt; lia
        | apply Z.eqb_eq; lia | apply Z.eqb_neq; lia ].

Lemma len_nonneg (s : list byte) : 0 <= Go.len s.
Proof. unfold Go.len. lia. Qed.

Lemma len_cons (x : byte) (s : list byte) : Go.len (x :: s) = Go.len s + 1.
Proof. unfold Go.len. cbn [length]. lia. Qed.

Lemma len_app (s t : list byte) : Go.len (s ++ t) = Go.len s + Go.len t.
Proof. unfold Go.len. rewrite length_app. lia. Qed.

Lemma slice_inv (s : list byte) (lo hi : Z) (r : list byte) :
  Go.slice s lo hi = Returns r ->
  0 <= lo <= hi /\ hi <= Go.len s /\
  r = firstn (Z.to_nat (hi - lo)) (skipn (Z.to_nat lo) s).
Proof.
  unfold Go.slice. intros H. case_if; [|discriminate].
  inversion H. rewrite !andb_true_iff in *. repeat split; lia.
Qed.

Lemma slice_ok (s : list byte) (lo hi : Z) :
  0 <= lo <= hi -> hi <= Go.len s ->
  Go.slice s lo hi = Returns (firstn (Z.to_nat (hi - lo)) (skipn (Z.to_nat lo) s)).
Proof.
  intros H1 H2. unfold Go.slice.
  replace ((0 <=? lo) && (lo <=? hi) && (hi <=? Go.len s)) with true; [reflexivity|].
  symmetry. rewrite !andb_true_iff. lia.
Qed.

Lemma slice_from_ok (s : list byte) (lo : Z) :
  0 <= lo <= Go.len s -> Go.slice_from s lo = Returns (skipn (Z.to_nat lo) s).
Proof.
  intros H. unfold Go.slice_from. rewrite slice_ok by lia. f_equal.
  apply firstn_all2. rewrite length_skipn. unfold Go.len in *. lia.
Qed.

Lemma slice_from_inv (s : list byte) (lo : Z) (r : list byte) :
  Go.slice_from s lo = Returns r ->
  0 <= lo <= Go.len s /\ r = skipn (Z.to_nat lo) s.
Proof.
  intros H. pose proof (slice_inv _ _ _ _ H) as (H1 & H2 & _).
  rewrite slice_from_ok in H by lia. inversion H. split; [lia | reflexivity].
Qed.

Lemma slice_to_ok (s : list byte) (n : Z) :
  0 <= n <= Go.len s -> Go.slice s 0 n = Returns (firstn (Z.to_nat n) s).
Proof.
  intros H. rewrite slice_ok by lia. rewrite Z.sub_0_r. reflexivity.
Qed.

Lemma index_cons_0 (x : byte) (s : list byte) : Go.index (x :: s) 0 = Returns x.
Proof.
  unfold Go.index. rewrite len_cons. pose proof (len_nonneg s).
  replace ((0 <=? 0) && (0 <? Go.len s + 1)) with true; [reflexivity|].
  symmetry. rewrite andb_true_iff. lia.
Qed.

Lemma index_cons_1 (x y : byte) (s : list byte) : Go.index (x :: y :: s) 1 = Returns y.
Proof.
  unfold Go.index. rewrite !len_cons. pose proof (len_nonneg s).
  replace ((0 <=? 1) && (1 <? Go.len s + 1 + 1)) with true; [reflexivity|].
  symmetry. rewrite andb_true_iff. lia.
Qed.

Lemma slice_from_cons_1 (x : byte) (s : list byte) : Go.slice_from (x :: s) 1 = Returns s.
Proof.
  rewrite slice_from_ok; [reflexivity|]. rewrite len_cons. pose proof (len_nonneg s). lia.
Qed.

Lemma slice_from_cons_2 (x y : byte) (s : list byte) :
  Go.slice_from (x :: y :: s) 2 = Returns s.
Proof.
  rewrite slice_from_ok; [reflexivity|]. rewrite !len_cons. pose proof (len_nonneg s). lia.
Qed.

Lemma take_ok (mk : list byte -> value) (next : list byte) (n : Z) :
  0 <= n <= Go.len next ->
  take mk next n = Returns (mk (firstn (Z.to_nat n) next), skipn (Z.to_nat n) next, None).
Proof.
  intros H. unfold take. rewrite slice_to_ok, slice_from_ok by lia. reflexivity.
Qed.

Lemma take_inv (mk : list byte -> value) (next : list byte) (n : Z) (r : decoded) :
  take mk next n = Returns r ->
  0 <= n <= Go.len next /\
  r = (mk (firstn (Z.to_nat n) next), skipn (Z.to_nat n) next, None).
Proof.
  intros H.
  assert (Hn : 0 <= n <= Go.len next).
  { unfold take in H. destruct (Go.slice next 0 n) as [p|] eqn:Hp; [|discriminate].
    apply slice_inv in Hp. lia. }
  rewrite take_ok in H by lia. inversion H. split; [lia|reflexivity].
Qed.

(** The tag dispatch of [Decode] on a buffer that is not empty. *)
Lemma Decode_nil : Decode [] = Returns (GoNil, [], Some EmptyBufferError).
Proof. reflexivity. Qed.

Lemma Decode_cons_len (x : byte) (next : list byte) : (Go.len (x :: next) =? 0) = false.
Proof. rewrite len_cons. pose proof (len_nonneg next). lia. Qed.

(** A successful [Decode] consumes at least the tag byte. *)
Lemma Decode_consumes (b : list byte) (v : value) (next : list byte) :
  Decode b = Returns (v, next, None) -> (length next < length b)%nat.
Proof.
  destruct b as [|x b0]; [discriminate|].
  unfold Decode. rewrite Decode_cons_len, index_cons_0, slice_from_cons_1.
  cbn [bind]. intros H.
  assert (Hc : forall mk s n, take mk s n = Returns (v, next, None) ->
                              (length next <= length s)%nat).
  { intros mk s n Ht. apply take_inv in Ht as [_ Ht]. inversion Ht.
    rewrite length_skipn. lia. }
  unfold corrupted in H.
  repeat (case_if; try discriminate);
    try (inversion H; subst; cbn [length]; lia);
    try (apply Hc in H; cbn [length]; lia).
  - destruct b0 as [|y b1]; [discriminate|].
    rewrite index_cons_0, slice_from_cons_1 in H. cbn [bind] in H.
    case_if; try discriminate. apply Hc in H. cbn [length]. lia.
  - destruct b0 as [|y [|z b1]]; try discriminate.
    rewrite index_cons_0, index_cons_1, slice_from_cons_2 in H. cbn [bind] in H.
    case_if; try discriminate. apply Hc in H. cbn [length]. lia.
Qed.

(** [DecodeAll] returns [([]interface{}, error)]. With [strings] set a
    decoded [[]byte] is handed out as a [string]. The loop
    [for { v, next, err := Decode(b); ...; b = next }]: *)
Equations DecodeAll_loop (strings : bool) (b : list byte) (res : list value)
  : outcome (list value * option error) by wf (length b) lt :=
  DecodeAll_loop strings b res with Logic.inspect (Decode b) := {
    | exist _ (Panics msg) _ => Panics msg
    | exist _ (Returns (_, _, Some EmptyBufferError)) _ => Returns (res, None)
    | exist _ (Returns (_, _, Some err)) _ => Returns ([], Some err)
    | exist _ (Returns (v, next, None)) H =>
        let v := if strings
                 then match v with GoBytes sb => GoString sb | _ => v end
                 else v in
        DecodeAll_loop strings next (res ++ [v]) }.
Next Obligation. eapply Decode_consumes; eassumption. Qed.

Definition DecodeAll (strings : bool) (b : list byte) : outcome (list value * option error) :=
  DecodeAll_loop strings b [].

(** The dynamic type of a value, as the runtime prints it. *)
Definition type_name (v : value) : string :=
  match v with
  | GoNil => "nil"
  | GoBool _ => "bool"
  | GoInt _ => "int"
  | GoInt64 _ => "int64"
  | GoUint64 _ => "uint64"
  | GoUint64s _ => "[]uint64"
  | GoBytes _ => "[]uint8"
  | GoString _ => "string"
  | GoOther => "other"
  end%string.

(** [v.(uint64)]: the type assertion panics on every other dynamic type. *)
Definition assert_uint64 (v : value) : outcome Z :=
  match v with
  | GoUint64 u => Returns u
  | _ => Panics ("interface conversion: interface {} is " ++ type_name v ++ ", not uint64")%string
  end.

(** [DecodeUintArray] returns [([]uint64, error)]. The loop
    [for { v, next, err := Decode(b); ...; res = append(res, v.(uint64)); b = next }]: *)
Equations DecodeUintArray_loop (b : list byte) (res : list Z)
  : outcome (list Z * option error) by wf (length b) lt :=
  DecodeUintArray_loop b res with Logic.inspect (Decode b) := {
    | exist _ (Panics msg) _ => Panics msg
    | exist _ (Returns (_, _, Some EmptyBufferError)) _ => Returns (res, None)
    | exist _ (Returns (_, _, Some err)) _ => Returns ([], Some err)
    | exist _ (Returns (v, next, None)) H with assert_uint64 v := {
        | Panics msg => Panics msg
        | Returns u => DecodeUintArray_loop next (res ++ [u]) } }.
Next Obligation. eapply Decode_consumes; eassumption. Qed.

Definition DecodeUintArray (b : list byte) : outcome (list Z * option error) :=
  DecodeUintArray_loop b [].

(** * The vocabulary of the properties *)

(** ** Numbers and byte strings *)

(** [256 ^ n]: the numbers below it fit [n] bytes. *)
Definition pow256 (n : nat) : Z := 2 ^ (8 * Z.of_nat n).

(** The [n] low bytes of [v], most significant first. *)
Fixpoint big_endian (n : nat) (v : Z) : list byte :=
  match n with
  | O => []
  | S n' => byte.of_Z (Z.shiftr v (8 * Z.of_nat n')) :: big_endian n' v
  end.

(** The number a byte string denotes when read big-endian after [init]. *)
Definition be_value (init : Z) (bs : list byte) : Z :=
  fold_left (fun l b => l * 256 + byte.unsigned b) bs init.

(** ** Runs of the decoder *)

(** The three ways [Decode] returns. *)
Inductive Decode_returns (b : list byte) : outcome decoded -> Prop :=
| Decode_value (v : value) (next : list byte) :
    b <> [] -> Decode_returns b (Returns (v, next, None))
| Decode_empty :
    b = [] -> Decode_returns b (Returns (GoNil, [], Some EmptyBufferError))
| Decode_corrupted :
    b <> [] -> Decode_returns b (Returns (GoNil, [], Some CorruptedBufferError)).

(** What [DecodeAll] hands out for a decoded value. *)
Definition handed_out (strings : bool) (v : value) : value :=
  if strings then match v with GoBytes sb => GoString sb | _ => v end else v.

(** [decodes b vs rest]: single steps of [Decode] from [b] yield the values
    [vs] one after the other and leave [rest]. *)
Inductive decodes : list byte -> list value -> list byte -> Prop :=
| decodes_done (b : list byte) : decodes b [] b
| decodes_step (b : list byte) (v : value) (next : list byte)
               (vs : list value) (rest : list byte) :
    Decode b = Returns (v, next, None) ->
    decodes next vs rest ->
    decodes b (v :: vs) rest.

(** ** Minimal payloads *)

(** [n] payload bytes represent [i] in a sign band when the decoder of that
    band reads [i] from them. *)
Definition representable_int64 (positive : bool) (n : nat) (i : Z) : Prop :=
  exists p : list byte, length p = n /\ uncompactInt64 p positive = i.

Definition representable_uint64 (n : nat) (u : Z) : Prop :=
  exists p : list byte, length p = n /\ uncompactUint64 p = u.

(** [n] is the smallest byte count in 1..8 with property [P]. *)
Definition smallest_count (P : nat -> Prop) (n : nat) : Prop :=
  ((1 <= n <= 8)%nat /\ P n) /\
  forall m : nat, (1 <= m <= 8)%nat -> P m -> (n <= m)%nat.

(** The payload of an encoded value: what follows its tag byte. *)
Definition payload (e : list byte) : list byte := tl e.

(** ** The orders the encodings are meant to preserve *)

(** Byte strings by length, then by content (the package comment: longer
    slices win). *)
Definition bytes_order (a b : list byte) : comparison :=
  match (length a ?= length b)%nat with
  | Eq => Go.Compare a b
  | c => c
  end.

(** The logical category of a value handed to [Encode]. *)
Inductive category : Type := Absent | Boolean | Signed | Unsigned | ByteString.

Definition category_of (v : value) : option category :=
  match v with
  | GoNil => Some Absent
  | GoBool _ => Some Boolean
  | GoInt _ | GoInt64 _ => Some Signed
  | GoUint64 _ => Some Unsigned
  | GoBytes _ | GoString _ => Some ByteString
  | GoUint64s _ | GoOther => None
  end.

(** The natural order of two values of one category. *)
Definition value_order (x y : value) : comparison :=
  match x, y with
  | GoBool a, GoBool b => Bool.compare a b
  | (GoInt a | GoInt64 a), (GoInt b | GoInt64 b) => a ?= b
  | GoUint64 a, GoUint64 b => a ?= b
  | (GoBytes a | GoString a), (GoBytes b | GoString b) => bytes_order a b
  | _, _ => Eq
  end.

(** Standard tuple comparison: the first differing position decides. *)
Fixpoint tuple_order (xs ys : list value) : comparison :=
  match xs, ys with
  | x :: xs', y :: ys' =>
      match value_order x y with
      | Eq => tuple_order xs' ys'
      | c => c
      end
  | _, _ => Eq
  end.

(** Equal length, and the same category position by position. *)
Definition same_shape (xs ys : list value) : Prop :=
  Forall2 (fun x y => exists c, category_of x = Some c /\ category_of y = Some c) xs ys.

(** ** Tuples without byte strings *)

(** The values [EncodeNils] encodes without a byte string, each within the
    range of its Go type. *)
Definition plain (v : value) : Prop :=
  match v with
  | GoNil | GoBool _ => True
  | GoInt i | GoInt64 i => Go.is_int64 i
  | GoUint64 u => Go.is_uint64 u
  | _ => False
  end.

(** What [EncodeNils] appends for a plain value. *)
Definition encode_plain (nilFirst : bool) (v : value) : list byte :=
  match v with
  | GoNil => EncodeNil nilFirst
  | GoBool t => EncodeBool t
  | GoInt t => EncodeInt t
  | GoInt64 t => EncodeInt64 t
  | GoUint64 t => EncodeUint64 t
  | _ => []
  end.

(** What [Decode] hands back for a plain value: an [int] comes back as an
    [int64]. *)
Definition decoded_plain (v : value) : value :=
  match v with
  | GoInt t => GoInt64 t
  | _ => v
  end.

(** A byte string one byte longer than the largest band. *)
Definition oversize : list byte := repeat Byte.x00 (Z.to_nat (65851 + 0xffffffff + 1)).

(** ** Tuples with short byte strings *)

(** What [EncodeNils] appends for one value, when it appends. *)
Definition encode_one (nilFirst : bool) (v : value) : list byte :=
  match EncodeNils_step nilFirst [] v with
  | Returns (inl e) => e
  | _ => []
  end.

(** A value that is not nil and takes one position of a tuple, within the
    range of its Go type. *)
Definition non_nil_scalar (v : value) : Prop :=
  match v with
  | GoBool _ | GoInt _ | GoBytes _ | GoString _ => True
  | GoInt64 i => Go.is_int64 i
  | GoUint64 u => Go.is_uint64 u
  | _ => False
  end.

(** The lengths up to 60 whose bit 4 is clear: 0..15 and 32..47. *)
Definition short_string (bb : list byte) : Prop :=
  Go.len bb <= 60 /\ Z.testbit (Go.len bb) 4 = false.

(** The values that come back from the decoder. *)
Definition round_trips (v : value) : Prop :=
  match v with
  | GoBytes bb | GoString bb => short_string bb
  | _ => plain v
  end.

(** What [DecodeAll] hands out for an encoded value: an [int] as an
    [int64], a byte string or a string as a string when [strings] is set and
    as a byte string otherwise. *)
Definition decoded_as (strings : bool) (v : value) : value :=
  match v with
  | GoInt t => GoInt64 t
  | GoBytes bb | GoString bb => if strings then GoString bb else GoBytes bb
  | _ => v
  end.

(** ** Tuples whose byte strings are ordered as encoded *)

Definition bytes_of (v : value) : option (list byte) :=
  match v with
  | GoBytes bb | GoString bb => Some bb
  | _ => None
  end.

(** Two byte strings [EncodeBytes] accepts, of one length or the longer one
    of 61 to 65852 bytes. *)
Definition comparable_strings (a b : list byte) : Prop :=
  Go.len a <= 65851 + 0xffffffff /\ Go.len b <= 65851 + 0xffffffff /\
  (Go.len a = Go.len b \/
   (Go.len a < Go.len b /\ 61 <= Go.len b <= 65852) \/
   (Go.len b < Go.len a /\ 61 <= Go.len a <= 65852)).

(** Two values at one position of two tuples: two such byte strings, or two
    plain values of one category. *)
Definition comparable (x y : value) : Prop :=
  match bytes_of x, bytes_of y with
  | Some a, Some b => comparable_strings a b
  | None, None =>
      plain x /\ plain y /\ exists c, category_of x = Some c /\ category_of y = Some c
  | _, _ => False
  end.

(** * Properties *)

(** ** Powers of 256 and big-endian byte strings *)

Lemma pow256_0 : pow256 0 = 1.
Proof. reflexivity. Qed.

Lemma pow256_S (n : nat) : pow256 (S n) = 256 * pow256 n.
Proof.
  unfold pow256. rewrite Nat2Z.inj_succ.
  replace (8 * Z.succ (Z.of_nat n)) with (8 + 8 * Z.of_nat n) by lia.
  rewrite Z.pow_add_r by lia. reflexivity.
Qed.

Lemma pow256_pos (n : nat) : 0 < pow256 n.
Proof. unfold pow256. apply Z.pow_pos_nonneg; lia. Qed.

Lemma pow256_le (n m : nat) : (n <= m)%nat -> pow256 n <= pow256 m.
Proof. intros H. unfold pow256. apply Z.pow_le_mono_r; lia. Qed.

Lemma pow256_8 : pow256 8 = 2 ^ 64.
Proof. reflexivity. Qed.

Lemma pow256_divide (n m : nat) : (n <= m)%nat -> (pow256 n | pow256 m).
Proof.
  intros H. exists (pow256 (m - n)). unfold pow256.
  rewrite <- Z.pow_add_r by lia. f_equal. lia.
Qed.

Lemma shiftr_pow256 (v : Z) (n : nat) : Z.shiftr v (8 * Z.of_nat n) = v / pow256 n.
Proof. unfold pow256. apply Z.shiftr_div_pow2. lia. Qed.

Lemma big_endian_length (n : nat) (v : Z) : length (big_endian n v) = n.
Proof. induction n; cbn [big_endian length]; congruence. Qed.

Lemma be_value_app (init : Z) (bs cs : list byte) :
  be_value init (bs ++ cs) = be_value (be_value init bs) cs.
Proof. unfold be_value. apply fold_left_app. Qed.

Lemma be_value_init (init : Z) (bs : list byte) :
  be_value init bs = init * pow256 (length bs) + be_value 0 bs.
Proof.
  revert init. induction bs as [|b bs IH]; intros init.
  - cbn. lia.
  - cbn [length]. rewrite pow256_S. unfold be_value in *. cbn [fold_left].
    rewrite IH. rewrite (IH (0 * 256 + byte.unsigned b)). lia.
Qed.

Lemma be_value_range (bs : list byte) : 0 <= be_value 0 bs < pow256 (length bs).
Proof.
  induction bs as [|b bs IH] using rev_ind.
  - cbn. lia.
  - rewrite be_value_app, length_app. cbn [length].
    replace (length bs + 1)%nat with (S (length bs)) by lia. rewrite pow256_S.
    unfold be_value at 1 3. cbn [fold_left].
    pose proof (byte.unsigned_range b). change (2 ^ 8) with 256 in *. lia.
Qed.

Lemma mod_pow256_S (v : Z) (n : nat) :
  v mod pow256 (S n) = (v / pow256 n) mod 256 * pow256 n + v mod pow256 n.
Proof.
  rewrite pow256_S, (Z.mul_comm 256).
  rewrite Z.rem_mul_r by (pose proof (pow256_pos n); lia). lia.
Qed.

Lemma be_value_big_endian (n : nat) (v : Z) :
  be_value 0 (big_endian n v) = v mod pow256 n.
Proof.
  induction n as [|n IH].
  - cbn. rewrite Z.mod_1_r. reflexivity.
  - cbn [big_endian]. change (?x :: ?l) with ([x] ++ l).
    rewrite be_value_app, be_value_init, IH, big_endian_length.
    unfold be_value. cbn [fold_left].
    rewrite byte.unsigned_of_Z, shiftr_pow256, mod_pow256_S.
    unfold byte.wrap. change (2 ^ 8) with 256. lia.
Qed.

(** Unsigned lexicographic order on big-endian strings of one length is the
    order of the numbers they denote. *)
Lemma Compare_big_endian (n : nat) (x y : Z) :
  Go.Compare (big_endian n x) (big_endian n y) = (x mod pow256 n ?= y mod pow256 n).
Proof.
  induction n as [|n IH].
  - cbn. rewrite !Z.mod_1_r. reflexivity.
  - cbn [big_endian Go.Compare].
    rewrite !byte.unsigned_of_Z, !shiftr_pow256, !mod_pow256_S, IH.
    unfold byte.wrap. change (2 ^ 8) with 256.
    pose proof (pow256_pos n) as Hp.
    pose proof (Z.mod_pos_bound x (pow256 n) Hp).
    pose proof (Z.mod_pos_bound y (pow256 n) Hp).
    set (a := (x / pow256 n) mod 256). set (b := (y / pow256 n) mod 256).
    destruct (Z.compare_spec a b) as [E|L|G].
    + rewrite E. destruct (Z.compare_spec (x mod pow256 n) (y mod pow256 n));
        symmetry; [apply Z.compare_eq_iff | apply Z.compare_lt_iff | apply Z.compare_gt_iff]; lia.
    + symmetry. apply Z.compare_lt_iff. nia.
    + symmetry. apply Z.compare_gt_iff. nia.
Qed.

(** ** The two loops *)

Lemma scan_bits_eq (stop : Z -> bool) (bits : Z) :
  scan_bits stop bits =
  if bits >? 0 then (if stop bits then bits else scan_bits stop (bits - 8)) else bits.
Proof.
  rewrite scan_bits_equation_1. destruct (Z_gt_dec bits 0) as [H|H]; cbn.
  - replace (bits >? 0) with true by lia. reflexivity.
  - replace (bits >? 0) with false by lia. reflexivity.
Qed.

(** Started at byte [k], the scan stops at the highest byte [j <= k], [j > 0],
    where [stop] holds, and at byte 0 when there is none. *)
Lemma scan_bits_spec (stop : Z -> bool) (k : nat) :
  exists j : nat,
    (j <= k)%nat /\
    scan_bits stop (8 * Z.of_nat k) = 8 * Z.of_nat j /\
    ((0 < j)%nat -> stop (8 * Z.of_nat j) = true) /\
    (forall i : nat, (j < i <= k)%nat -> stop (8 * Z.of_nat i) = false).
Proof.
  induction k as [|k IH].
  - exists 0%nat. rewrite scan_bits_eq. cbn. repeat split; try lia.
  - rewrite scan_bits_eq.
    replace (8 * Z.of_nat (S k) >? 0) with true by zbool.
    destruct (stop (8 * Z.of_nat (S k))) eqn:Hs.
    + exists (S k). repeat split; try lia. intros _. exact Hs.
    + destruct IH as (j & Hj & Hr & Hstop & Hno).
      exists j. replace (8 * Z.of_nat (S k) - 8) with (8 * Z.of_nat k) by lia.
      repeat split; try assumption; try lia.
      intros i Hi. destruct (Nat.eq_dec i (S k)) as [->|Hne]; [exact Hs|].
      apply Hno. lia.
Qed.

Lemma emit_bytes_eq (v bits : Z) (bb : list byte) :
  emit_bytes v bits bb =
  if bits >=? 0 then emit_bytes v (bits - 8) (bb ++ [byte.of_Z (Z.shiftr v bits)]) else bb.
Proof.
  rewrite emit_bytes_equation_1. destruct (Z_ge_dec bits 0) as [H|H]; cbn.
  - replace (bits >=? 0) with true by lia. reflexivity.
  - replace (bits >=? 0) with false by lia. reflexivity.
Qed.

(** Started at byte [j], the emitting loop appends the [j + 1] low bytes of [v]. *)
Lemma emit_bytes_spec (v : Z) (j : nat) (bb : list byte) :
  emit_bytes v (8 * Z.of_nat j) bb = bb ++ big_endian (S j) v.
Proof.
  revert bb. induction j as [|j IH]; intros bb.
  - rewrite emit_bytes_eq. cbn [Z.of_nat Z.mul Z.geb Z.compare].
    rewrite emit_bytes_eq. reflexivity.
  - rewrite emit_bytes_eq.
    replace (8 * Z.of_nat (S j) >=? 0) with true by zbool.
    replace (8 * Z.of_nat (S j) - 8) with (8 * Z.of_nat j) by lia.
    rewrite IH, <- app_assoc. reflexivity.
Qed.

(** ** What the integer encoders produce *)

Lemma unsigned_of_Z_small (z : Z) : 0 <= z < 256 -> byte.unsigned (byte.of_Z z) = z.
Proof.
  intros H. rewrite byte.unsigned_of_Z. unfold byte.wrap. apply Z.mod_small.
  change (2 ^ 8) with 256. lia.
Qed.

Lemma quot_bits (j : nat) : Z.quot (8 * Z.of_nat j) 8 = Z.of_nat j.
Proof. rewrite Z.mul_comm. apply Z.quot_mul. lia. Qed.

(** The scan for the highest byte that is not zero. *)
Lemma scan_nonzero (v : Z) :
  0 <= v < 2 ^ 64 ->
  exists j : nat,
    (j <= 7)%nat /\
    scan_bits (fun bits => negb (Z.shiftr v bits =? 0)) (64 - 8) = 8 * Z.of_nat j /\
    v < pow256 (S j) /\
    ((0 < j)%nat -> pow256 j <= v).
Proof.
  intros Hv.
  destruct (scan_bits_spec (fun bits => negb (Z.shiftr v bits =? 0)) 7)
    as (j & Hj & Hr & Hstop & Hno).
  exists j. split; [exact Hj|]. split; [exact Hr|]. split.
  - destruct (Nat.eq_dec j 7) as [->|Hne]; [rewrite pow256_8; lia|].
    specialize (Hno (S j) ltac:(lia)). rewrite shiftr_pow256 in Hno.
    apply negb_false_iff, Z.eqb_eq in Hno.
    apply Z.div_small_iff in Hno; pose proof (pow256_pos (S j)); lia.
  - intros H0. specialize (Hstop H0). rewrite shiftr_pow256 in Hstop.
    apply negb_true_iff, Z.eqb_neq in Hstop.
    pose proof (pow256_pos j).
    destruct (Z.lt_ge_cases v (pow256 j)) as [Hlt|Hge]; [|exact Hge].
    exfalso. apply Hstop. apply Z.div_small. lia.
Qed.

Lemma compactUint64_spec (u : Z) :
  0 <= u < 2 ^ 64 ->
  exists j : nat,
    (j <= 7)%nat /\
    compactUint64 u = byte.of_Z (0x91 + Z.of_nat j) :: big_endian (S j) u /\
    u < pow256 (S j) /\
    ((0 < j)%nat -> pow256 j <= u).
Proof.
  intros Hu. destruct (scan_nonzero u Hu) as (j & Hj & Hr & Hlt & Hge).
  exists j. repeat split; try assumption.
  unfold compactUint64. cbv zeta. rewrite Hr, emit_bytes_spec, quot_bits.
  rewrite unsigned_of_Z_small by lia. cbn [app]. do 2 f_equal.
  unfold BB_UINT_VAR. lia.
Qed.

Lemma compactInt64_positive_spec (v : Z) :
  0 <= v < 2 ^ 64 ->
  exists j : nat,
    (j <= 7)%nat /\
    compactInt64 v (byte.of_Z BB_INT_POSITIVE_VALUE)
    = byte.of_Z (0xE8 + Z.of_nat j) :: big_endian (S j) v /\
    v < pow256 (S j) /\
    ((0 < j)%nat -> pow256 j <= v).
Proof.
  intros Hv. destruct (scan_nonzero v Hv) as (j & Hj & Hr & Hlt & Hge).
  exists j. repeat split; try assumption.
  unfold compactInt64. cbv zeta.
  change (Z.land (byte.unsigned (byte.of_Z BB_INT_POSITIVE_VALUE)) BB_TYPE_MASK
          =? BB_INT_NEGATIVE_VALUE) with false. cbv iota.
  rewrite Hr, emit_bytes_spec, quot_bits.
  rewrite (unsigned_of_Z_small (Z.of_nat j)) by lia. cbn [app]. do 2 f_equal.
Qed.

(** Byte [m] of a negative [int64] seen as a [uint64]. *)
Lemma byte_of_negative (i : Z) (m : nat) :
  - 2 ^ 63 <= i < 0 -> (m <= 7)%nat ->
  Z.land (Z.shiftr (Go.to_uint64 i) (8 * Z.of_nat m)) 0xff = (i / pow256 m) mod 256.
Proof.
  intros Hi Hm. unfold Go.to_uint64.
  change 0xff with (Z.ones 8). rewrite Z.land_ones by lia. change (2 ^ 8) with 256.
  rewrite shiftr_pow256.
  replace (i mod 2 ^ 64) with (i + 2 ^ 64)
    by (apply Z.mod_unique with (q := -1); lia).
  pose proof (pow256_pos m) as Hp.
  assert (E : 2 ^ 64 = (256 * pow256 (7 - m)) * pow256 m).
  { rewrite <- pow256_8, <- pow256_S. unfold pow256.
    rewrite <- Z.pow_add_r by lia. f_equal. lia. }
  rewrite E, Z.div_add by lia.
  rewrite (Z.mul_comm 256). apply Z_mod_plus_full.
Qed.

(** A negative number whose quotient by [256^m] is [-1] modulo 256. *)
Lemma negative_quotient (i : Z) (m : nat) :
  - pow256 (S m) <= i < 0 ->
  ((i / pow256 m) mod 256 = 255 <-> - pow256 m <= i).
Proof.
  intros Hi. rewrite pow256_S in Hi. pose proof (pow256_pos m) as Hp.
  pose proof (Z.div_mod i (pow256 m) ltac:(lia)) as Hd.
  pose proof (Z.mod_pos_bound i (pow256 m) Hp) as Hr.
  set (q := i / pow256 m) in *. set (r := i mod pow256 m) in *.
  assert (Hq : -256 <= q <= -1) by nia.
  replace (q mod 256) with (q + 256)
    by (apply Z.mod_unique with (q := -1); lia).
  split; intros H; nia.
Qed.

(** The scan for the highest byte that is not [0xff]. *)
Lemma scan_not_ff (i : Z) :
  - 2 ^ 63 <= i < 0 ->
  exists j : nat,
    (j <= 7)%nat /\
    scan_bits (fun bits => negb (Z.land (Z.shiftr (Go.to_uint64 i) bits) 0xff =? 0xff)) (64 - 8)
    = 8 * Z.of_nat j /\
    - pow256 (S j) <= i /\
    ((0 < j)%nat -> i < - pow256 j).
Proof.
  intros Hi.
  destruct (scan_bits_spec
              (fun bits => negb (Z.land (Z.shiftr (Go.to_uint64 i) bits) 0xff =? 0xff)) 7)
    as (j & Hj & Hr & Hstop & Hno).
  assert (Hlow : forall d m : nat, (m + d = 7)%nat -> (j <= m)%nat -> - pow256 (S m) <= i).
  { induction d as [|d IH]; intros m Hm Hjm.
    - replace m with 7%nat by lia. rewrite pow256_8. lia.
    - assert (Hnext : - pow256 (S (S m)) <= i) by (apply IH; lia).
      specialize (Hno (S m) ltac:(lia)).
      apply negb_false_iff, Z.eqb_eq in Hno.
      rewrite byte_of_negative in Hno by lia.
      apply negative_quotient in Hno; lia. }
  exists j. split; [exact Hj|]. split; [exact Hr|]. split.
  - apply (Hlow (7 - j)%nat j); lia.
  - intros H0. specialize (Hstop H0).
    apply negb_true_iff, Z.eqb_neq in Hstop.
    rewrite byte_of_negative in Hstop by lia.
    assert (Hj1 : - pow256 (S j) <= i) by (apply (Hlow (7 - j)%nat j); lia).
    destruct (Z.lt_ge_cases i (- pow256 j)) as [Hlt|Hge]; [exact Hlt|].
    exfalso. apply Hstop. apply negative_quotient; lia.
Qed.

Lemma compactInt64_negative_spec (i : Z) :
  - 2 ^ 63 <= i < 0 ->
  exists j : nat,
    (j <= 7)%nat /\
    compactInt64 (Go.to_uint64 i) (byte.of_Z BB_INT_NEGATIVE_VALUE)
    = byte.of_Z (0x67 - Z.of_nat j) :: big_endian (S j) (Go.to_uint64 i) /\
    - pow256 (S j) <= i /\
    ((0 < j)%nat -> i < - pow256 j).
Proof.
  intros Hi. destruct (scan_not_ff i Hi) as (j & Hj & Hr & Hlo & Hhi).
  exists j. repeat split; try assumption.
  unfold compactInt64. cbv zeta.
  change (Z.land (byte.unsigned (byte.of_Z BB_INT_NEGATIVE_VALUE)) BB_TYPE_MASK
          =? BB_INT_NEGATIVE_VALUE) with true. cbv iota.
  rewrite Hr, emit_bytes_spec, quot_bits.
  rewrite (unsigned_of_Z_small (Z.of_nat j)) by lia.
  rewrite (unsigned_of_Z_small (7 - Z.of_nat j)) by lia.
  cbn [app]. do 2 f_equal.
  change (byte.unsigned (byte.of_Z BB_INT_NEGATIVE_VALUE)) with 0x60. lia.
Qed.

(** ** What the two accumulating loops of the decoder compute *)

Lemma land_mul256_byte (m b : Z) : 0 <= b < 256 -> Z.land (m * 256) b = 0.
Proof.
  intros Hb. apply Z.bits_inj'. intros n Hn. rewrite Z.land_spec, Z.bits_0.
  destruct (Z.lt_ge_cases n 8) as [Hlt|Hge].
  - change 256 with (2 ^ 8). rewrite Z.mul_pow2_bits_low by lia. reflexivity.
  - replace b with (b mod 2 ^ 8) by (apply Z.mod_small; change (2 ^ 8) with 256; lia).
    rewrite Z.mod_pow2_bits_high by lia. apply andb_false_r.
Qed.

Lemma lor_mul256_byte (m b : Z) : 0 <= b < 256 -> Z.lor (m * 256) b = m * 256 + b.
Proof.
  intros Hb. pose proof (Z.add_lor_land (m * 256) b) as H.
  rewrite land_mul256_byte in H by exact Hb. lia.
Qed.

Lemma to_int64_range (x : Z) : Go.is_int64 (Go.to_int64 x).
Proof. unfold Go.is_int64, Go.to_int64. Z.to_euclidean_division_equations. lia. Qed.

Lemma to_int64_id (x : Z) : Go.is_int64 x -> Go.to_int64 x = x.
Proof. unfold Go.is_int64, Go.to_int64. intros H. Z.to_euclidean_division_equations. lia. Qed.

Lemma to_uint64_range (x : Z) : Go.is_uint64 (Go.to_uint64 x).
Proof. unfold Go.is_uint64, Go.to_uint64. Z.to_euclidean_division_equations. lia. Qed.

Lemma to_uint64_id (x : Z) : Go.is_uint64 x -> Go.to_uint64 x = x.
Proof. unfold Go.is_uint64, Go.to_uint64. intros H. apply Z.mod_small. exact H. Qed.

(** One step [l = (l << 8) | int64(b)] of [uncompactInt64]: the wrap-around
    happens modulo [2^64]. *)
Lemma int64_step (l e : Z) (b : byte) :
  l mod 2 ^ 64 = e mod 2 ^ 64 ->
  Go.to_int64 (Z.lor (Go.to_int64 (Z.shiftl l 8)) (byte.unsigned b)) mod 2 ^ 64
  = (e * 256 + byte.unsigned b) mod 2 ^ 64.
Proof.
  intros H. pose proof (byte.unsigned_range b) as Hb. change (2 ^ 8) with 256 in Hb.
  rewrite Z.shiftl_mul_pow2 by lia. change (2 ^ 8) with 256.
  assert (Hm : exists m, Go.to_int64 (l * 256) = m * 256 /\
                         (m * 256) mod 2 ^ 64 = (l * 256) mod 2 ^ 64).
  { exists (l - 2 ^ 56 * ((l * 256 + 2 ^ 63) / 2 ^ 64)). unfold Go.to_int64.
    split; Z.to_euclidean_division_equations; lia. }
  destruct Hm as (m & -> & Hm). rewrite lor_mul256_byte by exact Hb.
  unfold Go.to_int64. revert H Hm. generalize (byte.unsigned b). intros.
  Z.to_euclidean_division_equations. lia.
Qed.

Lemma uint64_step (l e : Z) (b : byte) :
  l mod 2 ^ 64 = e mod 2 ^ 64 ->
  Go.to_uint64 (Z.lor (Go.to_uint64 (Z.shiftl l 8)) (byte.unsigned b)) mod 2 ^ 64
  = (e * 256 + byte.unsigned b) mod 2 ^ 64.
Proof.
  intros H. pose proof (byte.unsigned_range b) as Hb. change (2 ^ 8) with 256 in Hb.
  rewrite Z.shiftl_mul_pow2 by lia. change (2 ^ 8) with 256.
  assert (Hm : exists m, Go.to_uint64 (l * 256) = m * 256 /\
                         (m * 256) mod 2 ^ 64 = (l * 256) mod 2 ^ 64).
  { exists (l - 2 ^ 56 * ((l * 256) / 2 ^ 64)). unfold Go.to_uint64.
    split; Z.to_euclidean_division_equations; lia. }
  destruct Hm as (m & -> & Hm). rewrite lor_mul256_byte by exact Hb.
  unfold Go.to_uint64. revert H Hm. generalize (byte.unsigned b). intros.
  Z.to_euclidean_division_equations. lia.
Qed.

Lemma uncompactInt64_range (bs : list byte) (positive : bool) :
  Go.is_int64 (uncompactInt64 bs positive).
Proof.
  unfold uncompactInt64. destruct bs as [|b bs] using rev_ind.
  - destruct positive; cbn; unfold Go.is_int64; lia.
  - rewrite fold_left_app. cbn [fold_left]. apply to_int64_range.
Qed.

Lemma uncompactInt64_eqm (bs : list byte) (positive : bool) :
  uncompactInt64 bs positive mod 2 ^ 64
  = be_value (if positive then 0 else -1) bs mod 2 ^ 64.
Proof.
  assert (G : forall l e, l mod 2 ^ 64 = e mod 2 ^ 64 ->
    fold_left (fun l b => Go.to_int64 (Z.lor (Go.to_int64 (Z.shiftl l 8)) (byte.unsigned b))) bs l
      mod 2 ^ 64
    = fold_left (fun l b => l * 256 + byte.unsigned b) bs e mod 2 ^ 64).
  { induction bs as [|b bs IH]; intros l e H; cbn [fold_left]; [exact H|].
    apply IH. apply int64_step. exact H. }
  unfold uncompactInt64, be_value. apply G. destruct positive; reflexivity.
Qed.

(** [uncompactInt64] reads its bytes big-endian after the sign seed, as long
    as the number read fits an [int64]. *)
Lemma uncompactInt64_be_value (bs : list byte) (positive : bool) :
  Go.is_int64 (be_value (if positive then 0 else -1) bs) ->
  uncompactInt64 bs positive = be_value (if positive then 0 else -1) bs.
Proof.
  intros H. pose proof (uncompactInt64_range bs positive) as Hr.
  pose proof (uncompactInt64_eqm bs positive) as He.
  unfold Go.is_int64 in *. revert H Hr He.
  generalize (uncompactInt64 bs positive), (be_value (if positive then 0 else -1) bs).
  intros. Z.to_euclidean_division_equations. lia.
Qed.

Lemma uncompactUint64_range (bs : list byte) : Go.is_uint64 (uncompactUint64 bs).
Proof.
  unfold uncompactUint64. destruct bs as [|b bs] using rev_ind.
  - cbn. unfold Go.is_uint64. lia.
  - rewrite fold_left_app. cbn [fold_left]. apply to_uint64_range.
Qed.

Lemma uncompactUint64_eqm (bs : list byte) :
  uncompactUint64 bs mod 2 ^ 64 = be_value 0 bs mod 2 ^ 64.
Proof.
  assert (G : forall l e, l mod 2 ^ 64 = e mod 2 ^ 64 ->
    fold_left (fun l b => Go.to_uint64 (Z.lor (Go.to_uint64 (Z.shiftl l 8)) (byte.unsigned b))) bs l
      mod 2 ^ 64
    = fold_left (fun l b => l * 256 + byte.unsigned b) bs e mod 2 ^ 64).
  { induction bs as [|b bs IH]; intros l e H; cbn [fold_left]; [exact H|].
    apply IH. apply uint64_step. exact H. }
  unfold uncompactUint64, be_value. apply G. reflexivity.
Qed.

Lemma uncompactUint64_be_value (bs : list byte) :
  (length bs <= 8)%nat -> uncompactUint64 bs = be_value 0 bs.
Proof.
  intros H. pose proof (uncompactUint64_range bs) as Hr.
  pose proof (uncompactUint64_eqm bs) as He.
  pose proof (be_value_range bs) as Hb. pose proof (pow256_le _ _ H) as Hp.
  rewrite pow256_8 in Hp. unfold Go.is_uint64 in *. revert Hb Hp Hr He.
  generalize (uncompactUint64 bs), (be_value 0 bs), (pow256 (length bs)).
  intros. Z.to_euclidean_division_equations. lia.
Qed.

(** ** The dispatch of [Decode] by tag *)

Lemma Decode_cons (x : byte) (next : list byte) :
  Decode (x :: next) =
  (k <- Returns x ;; next <- Returns next ;;
   let k := byte.unsigned k in
   if (k =? BB_NIL_FIRST) || (k =? BB_NIL_LAST) then
     Returns (GoNil, next, None)
   else if k =? BB_BOOLEAN_FALSE then
     Returns (GoBool false, next, None)
   else if k =? BB_BOOLEAN_TRUE then
     Returns (GoBool true, next, None)
   else if (k >=? BB_BYTES) && (k <? BB_BYTES_LEN_1) then
     let k := byte.unsigned (byte.of_Z (k - BB_BYTES)) in
     if Go.len next <? k then corrupted else
     take GoBytes next k
   else if k =? BB_BYTES_LEN_1 then
     if Go.len next <? 1 then corrupted else
     k <- Go.index next 0 ;;
     next <- Go.slice_from next 1 ;;
     let n := byte.unsigned k + 62 in
     if Go.len next <? n then corrupted else
     take GoBytes next n
   else if k =? BB_BYTES_LEN_2 then
     if Go.len next <? 2 then corrupted else
     k1 <- Go.index next 0 ;;
     k2 <- Go.index next 1 ;;
     next <- Go.slice_from next 2 ;;
     let n := byte.unsigned k1 * 256 + byte.unsigned k2 + 318 in
     if Go.len next <? n then corrupted else
     take GoBytes next n
   else if (k >=? MIN_SMALL_POSITIVE) && (k <=? MAX_SMALL_POSITIVE) then
     Returns (GoInt64 (Z.land k SMALL_INT_MASK), next, None)
   else if (k >=? MIN_SMALL_NEGATIVE) && (k <=? MAX_SMALL_NEGATIVE) then
     Returns (GoInt64 (Z.lor (Z.land k SMALL_INT_MASK) SMALL_NEG_MASK), next, None)
   else if Z.land k BB_INT_MASK =? BB_INT_POSITIVE_VALUE then
     let n := Z.land k 7 + 1 in
     if Go.len next <? n then corrupted else
     take (fun p => GoInt64 (uncompactInt64 p true)) next n
   else if Z.land k BB_INT_MASK =? BB_INT_NEGATIVE_VALUE then
     let n := 8 - Z.land k 7 in
     if Go.len next <? n then corrupted else
     take (fun p => GoInt64 (uncompactInt64 p false)) next n
   else if (k >=? MIN_SMALL_UINT) && (k <=? MAX_SMALL_UINT) then
     Returns (GoUint64 (Z.land k SMALL_UINT_MASK), next, None)
   else if Z.land k BB_UINT_MASK =? BB_UINT then
     let n := Z.land k 15 in
     if (n =? 0) || (n >? 8) || (Go.len next <? n) then corrupted else
     take (fun p => GoUint64 (uncompactUint64 p)) next n
   else
     corrupted).
Proof.
  unfold Decode. rewrite Decode_cons_len, index_cons_0, slice_from_cons_1. reflexivity.
Qed.

(** Every tag is one of the 256 bytes: a statement about a tag in a range is
    settled by running the dispatch on each of them. *)
Ltac tag_cases x H :=
  rewrite Decode_cons; cbn [bind];
  destruct x; try (exfalso; cbv in H; intuition congruence); reflexivity.

Lemma Decode_tag_bytes (x : byte) (next : list byte) :
  0x10 <= byte.unsigned x < 0x4D ->
  Decode (x :: next) =
  if Go.len next <? byte.unsigned x - 0x10 then corrupted
  else take GoBytes next (byte.unsigned x - 0x10).
Proof. intros H. tag_cases x H. Qed.

Lemma Decode_tag_positive (x : byte) (next : list byte) :
  0xE8 <= byte.unsigned x <= 0xEF ->
  Decode (x :: next) =
  if Go.len next <? byte.unsigned x - 0xE7 then corrupted
  else take (fun p => GoInt64 (uncompactInt64 p true)) next (byte.unsigned x - 0xE7).
Proof. intros H. tag_cases x H. Qed.

Lemma Decode_tag_negative (x : byte) (next : list byte) :
  0x60 <= byte.unsigned x <= 0x67 ->
  Decode (x :: next) =
  if Go.len next <? 0x68 - byte.unsigned x then corrupted
  else take (fun p => GoInt64 (uncompactInt64 p false)) next (0x68 - byte.unsigned x).
Proof. intros H. tag_cases x H. Qed.

Lemma Decode_tag_uint (x : byte) (next : list byte) :
  0x91 <= byte.unsigned x <= 0x98 ->
  Decode (x :: next) =
  if Go.len next <? byte.unsigned x - 0x90 then corrupted
  else take (fun p => GoUint64 (uncompactUint64 p)) next (byte.unsigned x - 0x90).
Proof. intros H. tag_cases x H. Qed.

Lemma firstn_length_app (p rest : list byte) : firstn (length p) (p ++ rest) = p.
Proof. induction p as [|x p IH]; cbn; [destruct rest; reflexivity | congruence]. Qed.

Lemma skipn_length_app (p rest : list byte) : skipn (length p) (p ++ rest) = rest.
Proof. induction p as [|x p IH]; cbn; [reflexivity | exact IH]. Qed.

(** Taking exactly the payload [p] off the front of [p ++ rest]. *)
Lemma take_app (mk : list byte -> value) (p rest : list byte) (n : Z) :
  n = Go.len p -> take mk (p ++ rest) n = Returns (mk p, rest, None).
Proof.
  intros ->. rewrite take_ok.
  - unfold Go.len. rewrite Nat2Z.id, firstn_length_app, skipn_length_app. reflexivity.
  - rewrite len_app. pose proof (len_nonneg p). pose proof (len_nonneg rest). lia.
Qed.

Lemma len_big_endian (n : nat) (v : Z) : Go.len (big_endian n v) = Z.of_nat n.
Proof. unfold Go.len. rewrite big_endian_length. reflexivity. Qed.

(** ** Round trips of the integer encodings *)

Lemma EncodeInt64_small (i : Z) :
  -8 <= i <= 7 -> EncodeInt64 i = [byte.of_Z (if i <? 0 then 0x70 + i else 0xE0 + i)].
Proof.
  intros H.
  assert (E : i = -8 \/ i = -7 \/ i = -6 \/ i = -5 \/ i = -4 \/ i = -3 \/ i = -2 \/ i = -1 \/
              i = 0 \/ i = 1 \/ i = 2 \/ i = 3 \/ i = 4 \/ i = 5 \/ i = 6 \/ i = 7) by lia.
  repeat (destruct E as [->|E]; [reflexivity|]). subst i. reflexivity.
Qed.

Lemma Decode_small_int (i : Z) (rest : list byte) :
  -8 <= i <= 7 ->
  Decode (byte.of_Z (if i <? 0 then 0x70 + i else 0xE0 + i) :: rest)
  = Returns (GoInt64 i, rest, None).
Proof.
  intros H. rewrite Decode_cons. cbn [bind].
  assert (E : i = -8 \/ i = -7 \/ i = -6 \/ i = -5 \/ i = -4 \/ i = -3 \/ i = -2 \/ i = -1 \/
              i = 0 \/ i = 1 \/ i = 2 \/ i = 3 \/ i = 4 \/ i = 5 \/ i = 6 \/ i = 7) by lia.
  repeat (destruct E as [->|E]; [reflexivity|]). subst i. reflexivity.
Qed.

Lemma to_uint64_negative_mod (i : Z) (n : nat) :
  (n <= 8)%nat -> - pow256 n <= i < 0 -> Go.to_uint64 i mod pow256 n = i + pow256 n.
Proof.
  intros Hn Hi. unfold Go.to_uint64. pose proof (pow256_pos n) as Hp.
  rewrite Z.mod_mod_divide by (rewrite <- pow256_8; apply pow256_divide; exact Hn).
  symmetry. apply Z.mod_unique with (q := -1); lia.
Qed.

Lemma Decode_EncodeInt64_app (i : Z) (rest : list byte) :
  Go.is_int64 i -> Decode (EncodeInt64 i ++ rest) = Returns (GoInt64 i, rest, None).
Proof.
  intros Hi. unfold Go.is_int64 in Hi.
  destruct (Z_lt_dec i (-8)) as [Hneg|Hn8]; [|destruct (Z_gt_dec i 7) as [Hpos|Hn7]].
  - unfold EncodeInt64. change SMALL_NEGATIVE_INT with (-8).
    replace (i <? -8) with true by lia.
    destruct (compactInt64_negative_spec i ltac:(lia)) as (j & Hj & -> & Hlo & _).
    cbn [app]. rewrite Decode_tag_negative by (rewrite unsigned_of_Z_small; lia).
    rewrite unsigned_of_Z_small by lia.
    rewrite len_app, len_big_endian.
    replace (Z.of_nat (S j) + Go.len rest <? 104 - (103 - Z.of_nat j)) with false
      by (pose proof (len_nonneg rest); zbool).
    rewrite take_app by (rewrite len_big_endian; lia).
    rewrite uncompactInt64_be_value; cbv iota;
      rewrite be_value_init, be_value_big_endian, big_endian_length,
        to_uint64_negative_mod by lia.
    + repeat f_equal. lia.
    + unfold Go.is_int64. lia.
  - unfold EncodeInt64. change SMALL_NEGATIVE_INT with (-8). change SMALL_POSITIVE_INT with 7.
    replace (i <? -8) with false by lia. replace (i >? 7) with true by lia.
    rewrite (to_uint64_id i) by (unfold Go.is_uint64; lia).
    destruct (compactInt64_positive_spec i ltac:(lia)) as (j & Hj & -> & Hhi & _).
    cbn [app]. rewrite Decode_tag_positive by (rewrite unsigned_of_Z_small; lia).
    rewrite unsigned_of_Z_small by lia.
    rewrite len_app, len_big_endian.
    replace (Z.of_nat (S j) + Go.len rest <? 232 + Z.of_nat j - 231) with false
      by (pose proof (len_nonneg rest); zbool).
    rewrite take_app by (rewrite len_big_endian; lia).
    rewrite uncompactInt64_be_value; cbv iota;
      rewrite be_value_big_endian, Z.mod_small by lia.
    + reflexivity.
    + unfold Go.is_int64. lia.
  - rewrite EncodeInt64_small by lia. cbn [app]. apply Decode_small_int. lia.
Qed.

Lemma EncodeUint64_small (u : Z) :
  0 <= u <= 16 -> EncodeUint64 u = [byte.of_Z (0x80 + u)].
Proof.
  intros H. unfold EncodeUint64. change SMALL_UINT with 16.
  replace (u <=? 16) with true by lia. rewrite unsigned_of_Z_small by lia. reflexivity.
Qed.

Lemma Decode_small_uint (u : Z) (rest : list byte) :
  0 <= u <= 16 -> Decode (byte.of_Z (0x80 + u) :: rest) = Returns (GoUint64 u, rest, None).
Proof.
  intros H. rewrite Decode_cons. cbn [bind].
  assert (E : u = 0 \/ u = 1 \/ u = 2 \/ u = 3 \/ u = 4 \/ u = 5 \/ u = 6 \/ u = 7 \/ u = 8 \/
              u = 9 \/ u = 10 \/ u = 11 \/ u = 12 \/ u = 13 \/ u = 14 \/ u = 15 \/ u = 16) by lia.
  repeat (destruct E as [->|E]; [reflexivity|]). subst u. reflexivity.
Qed.

Lemma Decode_EncodeUint64_app (u : Z) (rest : list byte) :
  Go.is_uint64 u -> Decode (EncodeUint64 u ++ rest) = Returns (GoUint64 u, rest, None).
Proof.
  intros Hu. unfold Go.is_uint64 in Hu.
  destruct (Z_le_dec u 16) as [Hs|Hb].
  - rewrite EncodeUint64_small by lia. cbn [app]. apply Decode_small_uint. lia.
  - unfold EncodeUint64. change SMALL_UINT with 16. replace (u <=? 16) with false by lia.
    destruct (compactUint64_spec u Hu) as (j & Hj & -> & Hhi & _).
    cbn [app]. rewrite Decode_tag_uint by (rewrite unsigned_of_Z_small; lia).
    rewrite unsigned_of_Z_small by lia.
    rewrite len_app, len_big_endian.
    replace (Z.of_nat (S j) + Go.len rest <? 145 + Z.of_nat j - 144) with false
      by (pose proof (len_nonneg rest); zbool).
    rewrite take_app by (rewrite len_big_endian; lia).
    rewrite uncompactUint64_be_value by (rewrite big_endian_length; lia).
    rewrite be_value_big_endian, Z.mod_small by lia. reflexivity.
Qed.

(** ** Unsigned lexicographic comparison *)

Lemma Compare_refl (a : list byte) : Go.Compare a a = Eq.
Proof. induction a as [|x a IH]; cbn; [reflexivity|]. rewrite Z.compare_refl. exact IH. Qed.

Lemma Compare_antisym (a b : list byte) : Go.Compare b a = CompOpp (Go.Compare a b).
Proof.
  revert b. induction a as [|x a IH]; intros [|y b]; cbn; try reflexivity.
  rewrite (Z.compare_antisym (byte.unsigned x)).
  destruct (byte.unsigned x ?= byte.unsigned y); cbn; [apply IH | reflexivity | reflexivity].
Qed.

Lemma Compare_app_prefix (p a b : list byte) : Go.Compare (p ++ a) (p ++ b) = Go.Compare a b.
Proof. induction p as [|x p IH]; cbn; [reflexivity|]. rewrite Z.compare_refl. exact IH. Qed.

(** Two strings of one length settle the comparison of whatever extends
    them, unless they are equal. *)
Lemma Compare_app_same_length (a b ra rb : list byte) :
  length a = length b ->
  Go.Compare (a ++ ra) (b ++ rb) =
  match Go.Compare a b with Eq => Go.Compare ra rb | c => c end.
Proof.
  revert b. induction a as [|x a IH]; intros [|y b] H; try discriminate; cbn; [reflexivity|].
  destruct (byte.unsigned x ?= byte.unsigned y); try reflexivity.
  apply IH. cbn in H. congruence.
Qed.

Lemma Compare_tag_lt (ta tb : Z) (pa pb : list byte) :
  0 <= ta < tb -> tb < 256 -> Go.Compare (byte.of_Z ta :: pa) (byte.of_Z tb :: pb) = Lt.
Proof.
  intros H1 H2. cbn. rewrite !unsigned_of_Z_small by lia.
  replace (ta ?= tb) with Lt by (symmetry; apply Z.compare_lt_iff; lia). reflexivity.
Qed.

Lemma Compare_same_tag (t : byte) (n : nat) (x y : Z) (ra rb : list byte) :
  x mod pow256 n < y mod pow256 n ->
  Go.Compare ((t :: big_endian n x) ++ ra) ((t :: big_endian n y) ++ rb) = Lt.
Proof.
  intros H. cbn. rewrite Z.compare_refl.
  rewrite Compare_app_same_length by (rewrite !big_endian_length; reflexivity).
  rewrite Compare_big_endian.
  replace (x mod pow256 n ?= y mod pow256 n) with Lt
    by (symmetry; apply Z.compare_lt_iff; exact H).
  reflexivity.
Qed.

(** ** Order of the integer encodings *)

Lemma pow256_lt_levels (ja jb : nat) (a b : Z) :
  a < pow256 (S ja) -> ((0 < jb)%nat -> pow256 jb <= b) -> b <= a -> (jb <= ja)%nat.
Proof.
  intros Ha Hb Hab. destruct (Nat.le_gt_cases jb ja) as [H|H]; [exact H|].
  exfalso. pose proof (pow256_le (S ja) jb ltac:(lia)). specialize (Hb ltac:(lia)). lia.
Qed.

Lemma EncodeUint64_lt_app (a b : Z) (ra rb : list byte) :
  Go.is_uint64 a -> Go.is_uint64 b -> a < b ->
  Go.Compare (EncodeUint64 a ++ ra) (EncodeUint64 b ++ rb) = Lt.
Proof.
  unfold Go.is_uint64. intros Ha Hb Hab.
  destruct (Z_le_dec b 16) as [Hbs|Hbb].
  - rewrite !EncodeUint64_small by lia. apply Compare_tag_lt; lia.
  - unfold EncodeUint64 at 2. change SMALL_UINT with 16. replace (b <=? 16) with false by lia.
    destruct (compactUint64_spec b Hb) as (jb & Hjb & -> & Hbhi & Hblo).
    destruct (Z_le_dec a 16) as [Has|Hab'].
    + rewrite EncodeUint64_small by lia. apply Compare_tag_lt; lia.
    + unfold EncodeUint64. change SMALL_UINT with 16. replace (a <=? 16) with false by lia.
      destruct (compactUint64_spec a Ha) as (ja & Hja & -> & Hahi & Halo).
      assert (Hle : (ja <= jb)%nat) by (apply (pow256_lt_levels jb ja b a); auto; lia).
      destruct (Nat.eq_dec ja jb) as [->|Hne].
      * apply Compare_same_tag. rewrite !Z.mod_small by lia. exact Hab.
      * apply Compare_tag_lt; lia.
Qed.

Lemma EncodeInt64_lt_app (a b : Z) (ra rb : list byte) :
  Go.is_int64 a -> Go.is_int64 b -> a < b ->
  Go.Compare (EncodeInt64 a ++ ra) (EncodeInt64 b ++ rb) = Lt.
Proof.
  unfold Go.is_int64. intros Ha Hb Hab.
  assert (Hsmall : forall i, -8 <= i <= 7 ->
            0x68 <= (if i <? 0 then 0x70 + i else 0xE0 + i) <= 0xE7
            /\ (i < 0 -> (if i <? 0 then 0x70 + i else 0xE0 + i) = 0x70 + i)
            /\ (0 <= i -> (if i <? 0 then 0x70 + i else 0xE0 + i) = 0xE0 + i)).
  { intros i Hi. destruct (Z.ltb_spec i 0); lia. }
  destruct (Z_lt_dec a (-8)) as [Aneg|Anneg].
  - (* a is a compacted negative number *)
    unfold EncodeInt64 at 1. change SMALL_NEGATIVE_INT with (-8).
    replace (a <? -8) with true by lia.
    destruct (compactInt64_negative_spec a ltac:(lia)) as (ja & Hja & -> & Halo & Hahi).
    destruct (Z_lt_dec b (-8)) as [Bneg|Bnneg]; [|destruct (Z_gt_dec b 7) as [Bpos|Bnpos]].
    + unfold EncodeInt64. change SMALL_NEGATIVE_INT with (-8).
      replace (b <? -8) with true by lia.
      destruct (compactInt64_negative_spec b ltac:(lia)) as (jb & Hjb & -> & Hblo & Hbhi).
      assert (Hle : (jb <= ja)%nat).
      { apply (pow256_lt_levels ja jb (- a - 1) (- b - 1)); lia. }
      destruct (Nat.eq_dec ja jb) as [->|Hne].
      * apply Compare_same_tag. rewrite !to_uint64_negative_mod by lia. lia.
      * apply Compare_tag_lt; lia.
    + unfold EncodeInt64. change SMALL_NEGATIVE_INT with (-8). change SMALL_POSITIVE_INT with 7.
      replace (b <? -8) with false by lia. replace (b >? 7) with true by lia.
      rewrite (to_uint64_id b) by (unfold Go.is_uint64; lia).
      destruct (compactInt64_positive_spec b ltac:(lia)) as (jb & Hjb & -> & _ & _).
      apply Compare_tag_lt; lia.
    + rewrite (EncodeInt64_small b) by lia. specialize (Hsmall b ltac:(lia)).
      apply Compare_tag_lt; lia.
  - destruct (Z_gt_dec a 7) as [Apos|Anpos].
    + (* both are compacted positive numbers *)
      unfold EncodeInt64. change SMALL_NEGATIVE_INT with (-8). change SMALL_POSITIVE_INT with 7.
      replace (a <? -8) with false by lia. replace (a >? 7) with true by lia.
      replace (b <? -8) with false by lia. replace (b >? 7) with true by lia.
      rewrite (to_uint64_id a), (to_uint64_id b) by (unfold Go.is_uint64; lia).
      destruct (compactInt64_positive_spec a ltac:(lia)) as (ja & Hja & -> & Hahi & Halo).
      destruct (compactInt64_positive_spec b ltac:(lia)) as (jb & Hjb & -> & Hbhi & Hblo).
      assert (Hle : (ja <= jb)%nat) by (apply (pow256_lt_levels jb ja b a); auto; lia).
      destruct (Nat.eq_dec ja jb) as [->|Hne].
      * apply Compare_same_tag. rewrite !Z.mod_small by lia. exact Hab.
      * apply Compare_tag_lt; lia.
    + (* a is a small literal *)
      rewrite (EncodeInt64_small a) by lia. pose proof (Hsmall a ltac:(lia)) as HA.
      destruct (Z_gt_dec b 7) as [Bpos|Bnpos].
      * unfold EncodeInt64. change SMALL_NEGATIVE_INT with (-8). change SMALL_POSITIVE_INT with 7.
        replace (b <? -8) with false by lia. replace (b >? 7) with true by lia.
        rewrite (to_uint64_id b) by (unfold Go.is_uint64; lia).
        destruct (compactInt64_positive_spec b ltac:(lia)) as (jb & Hjb & -> & _ & _).
        apply Compare_tag_lt; lia.
      * rewrite (EncodeInt64_small b) by lia. pose proof (Hsmall b ltac:(lia)) as HB.
        apply Compare_tag_lt; lia.
Qed.

(** ** [Decode] never panics *)

Lemma take_guarded (mk : list byte -> value) (next : list byte) (n : Z) :
  0 <= n -> (Go.len next <? n) = false ->
  exists v rest, take mk next n = Returns (v, rest, None).
Proof.
  intros Hn Hlen. rewrite take_ok by lia. eauto.
Qed.

Lemma land_low_bits (k : Z) (n : Z) :
  0 <= n -> 0 <= Z.land k (Z.ones n) < 2 ^ n.
Proof.
  intros Hn. rewrite Z.land_ones by exact Hn. apply Z.mod_pos_bound.
  apply Z.pow_pos_nonneg; lia.
Qed.

Lemma Decode_total (b : list byte) : Decode_returns b (Decode b).
Proof.
  destruct b as [|x next]; [apply Decode_empty; reflexivity|].
  assert (Hne : x :: next <> []) by discriminate.
  assert (Htake : forall mk s n, 0 <= n -> (Go.len s <? n) = false ->
            Decode_returns (x :: next) (take mk s n)).
  { intros mk s n Hn Hl. destruct (take_guarded mk s n Hn Hl) as (v & rest & ->).
    apply Decode_value. exact Hne. }
  rewrite Decode_cons. cbn [bind].
  pose proof (byte.unsigned_range x) as Hx.
  pose proof (land_low_bits (byte.unsigned x) 3 ltac:(lia)) as H7.
  pose proof (land_low_bits (byte.unsigned x) 4 ltac:(lia)) as H15.
  change (Z.ones 3) with 7 in H7. change (Z.ones 4) with 15 in H15.
  change (2 ^ 3) with 8 in H7.
  repeat (case_if; try (apply Decode_value; exact Hne);
          try (apply Decode_corrupted; exact Hne)).
  - apply Htake; [|assumption]. apply byte.unsigned_range.
  - destruct next as [|k next]; [rewrite Z.ltb_ge in *; cbn in *; lia|].
    rewrite index_cons_0, slice_from_cons_1. cbn [bind].
    case_if; [apply Decode_corrupted; exact Hne|].
    apply Htake; [|assumption]. pose proof (byte.unsigned_range k). lia.
  - destruct next as [|k1 [|k2 next]];
      try (rewrite Z.ltb_ge in *; cbn in *; lia).
    rewrite index_cons_0, index_cons_1, slice_from_cons_2. cbn [bind].
    case_if; [apply Decode_corrupted; exact Hne|].
    apply Htake; [|assumption].
    pose proof (byte.unsigned_range k1). pose proof (byte.unsigned_range k2). lia.
  - apply Htake; [lia|assumption].
  - apply Htake; [lia|assumption].
  - rewrite !orb_false_iff in *. apply Htake; [lia|tauto].
Qed.

(** ** [DecodeAll] *)

(** One turn of the loop of [DecodeAll]. *)
Lemma DecodeAll_loop_eq (strings : bool) (b : list byte) (res : list value) :
  DecodeAll_loop strings b res =
  match Decode b with
  | Panics msg => Panics msg
  | Returns (_, _, Some EmptyBufferError) => Returns (res, None)
  | Returns (_, _, Some err) => Returns ([], Some err)
  | Returns (v, next, None) => DecodeAll_loop strings next (res ++ [handed_out strings v])
  end.
Proof.
  funelim (DecodeAll_loop strings b res);
    match goal with e : Decode _ = _ |- _ => rewrite e end; reflexivity.
Qed.

Lemma DecodeAll_loop_spec (strings : bool) (b : list byte) (res : list value) :
  exists (vs : list value) (rest : list byte) (e : error),
    decodes b vs rest /\
    Decode rest = Returns (GoNil, [], Some e) /\
    DecodeAll_loop strings b res =
    Returns (match e with
             | EmptyBufferError => (res ++ map (handed_out strings) vs, None)
             | _ => ([], Some e)
             end).
Proof.
  remember (length b) as n eqn:Hn. revert b res Hn.
  induction n as [n IH] using lt_wf_ind. intros b res Hn.
  rewrite DecodeAll_loop_eq.
  pose proof (Decode_total b) as Ht.
  inversion Ht as [v next Hb Hd | Hb Hd | Hb Hd]; symmetry in Hd.
  - assert (Hlt : (length next < n)%nat) by (subst n; eapply Decode_consumes; eassumption).
    destruct (IH (length next) Hlt next (res ++ [handed_out strings v]) eq_refl)
      as (vs & rest & e & Hvs & He & Hall).
    exists (v :: vs), rest, e. split; [|split].
    + eapply decodes_step; eassumption.
    + exact He.
    + rewrite Hall. cbn [map]. rewrite <- app_assoc. reflexivity.
  - exists [], b, EmptyBufferError. split; [|split].
    + apply decodes_done.
    + assumption.
    + cbn [map]. rewrite app_nil_r. reflexivity.
  - exists [], b, CorruptedBufferError. split; [|split].
    + apply decodes_done.
    + assumption.
    + reflexivity.
Qed.

(** The decoding run of a buffer is unique. *)
Lemma decodes_deterministic (b : list byte) (vs vs' : list value) (rest rest' : list byte)
      (e e' : error) :
  decodes b vs rest -> Decode rest = Returns (GoNil, [], Some e) ->
  decodes b vs' rest' -> Decode rest' = Returns (GoNil, [], Some e') ->
  vs = vs' /\ rest = rest' /\ e = e'.
Proof.
  intros H. revert vs' rest' e'.
  induction H as [b | b v next vs rest Hd Hrun IH]; intros vs' rest' e' He H' He'.
  - inversion H' as [|? v' next' ? ? Hd']; subst.
    + rewrite He in He'. inversion He'. auto.
    + rewrite He in Hd'. discriminate.
  - inversion H' as [|? v' next' vs'' ? Hd' Hrun']; subst.
    + rewrite Hd in He'. discriminate.
    + rewrite Hd in Hd'. inversion Hd'; subst.
      destruct (IH _ _ _ He Hrun' He') as (-> & -> & ->). auto.
Qed.

(** ** Minimality of the integer payloads *)

Lemma pow256_7 : pow256 7 = 2 ^ 56.
Proof. reflexivity. Qed.

(** What [n <= 7] payload bytes can denote in the positive band ... *)
Lemma uncompactInt64_positive_bounds (p : list byte) :
  (length p <= 7)%nat -> 0 <= uncompactInt64 p true < pow256 (length p).
Proof.
  intros H. pose proof (be_value_range p) as Hr.
  pose proof (pow256_le _ _ H) as Hp. rewrite pow256_7 in Hp.
  rewrite uncompactInt64_be_value; [exact Hr|]. unfold Go.is_int64. lia.
Qed.

(** ... and in the negative band, where the bytes above the payload are all
    [0xff]. *)
Lemma uncompactInt64_negative_bounds (p : list byte) :
  (length p <= 7)%nat -> - pow256 (length p) <= uncompactInt64 p false < 0.
Proof.
  intros H. pose proof (be_value_range p) as Hr.
  pose proof (pow256_le _ _ H) as Hp. rewrite pow256_7 in Hp.
  rewrite uncompactInt64_be_value; cbv iota; rewrite be_value_init; [lia|].
  unfold Go.is_int64. lia.
Qed.

Lemma uncompactUint64_bounds (p : list byte) :
  (length p <= 8)%nat -> 0 <= uncompactUint64 p < pow256 (length p).
Proof.
  intros H. rewrite uncompactUint64_be_value by exact H. apply be_value_range.
Qed.

Lemma uncompactInt64_big_endian_positive (n : nat) (i : Z) :
  0 <= i < pow256 n -> i < 2 ^ 63 -> uncompactInt64 (big_endian n i) true = i.
Proof.
  intros H1 H2.
  rewrite uncompactInt64_be_value; cbv iota; rewrite be_value_big_endian, Z.mod_small by lia.
  - reflexivity.
  - unfold Go.is_int64. lia.
Qed.

Lemma uncompactInt64_big_endian_negative (n : nat) (i : Z) :
  (n <= 8)%nat -> - pow256 n <= i < 0 -> - 2 ^ 63 <= i ->
  uncompactInt64 (big_endian n (Go.to_uint64 i)) false = i.
Proof.
  intros Hn H1 H2.
  rewrite uncompactInt64_be_value; cbv iota;
    rewrite be_value_init, be_value_big_endian, big_endian_length,
      to_uint64_negative_mod by lia.
  - lia.
  - unfold Go.is_int64. lia.
Qed.

Lemma uncompactUint64_big_endian (n : nat) (u : Z) :
  (n <= 8)%nat -> 0 <= u < pow256 n -> uncompactUint64 (big_endian n u) = u.
Proof.
  intros Hn H. rewrite uncompactUint64_be_value by (rewrite big_endian_length; exact Hn).
  rewrite be_value_big_endian. apply Z.mod_small. exact H.
Qed.

Lemma EncodeInt64_payload_minimal (i : Z) :
  Go.is_int64 i -> i < -8 \/ 7 < i ->
  smallest_count (fun n => representable_int64 (0 <=? i) n i)
                 (length (payload (EncodeInt64 i))).
Proof.
  unfold Go.is_int64. intros Hi [Hneg|Hpos].
  - unfold EncodeInt64. change SMALL_NEGATIVE_INT with (-8).
    replace (i <? -8) with true by lia. replace (0 <=? i) with false by lia.
    destruct (compactInt64_negative_spec i ltac:(lia)) as (j & Hj & -> & Hlo & Hhi).
    cbn [payload tl]. rewrite big_endian_length. split; [split; [lia|]|].
    + exists (big_endian (S j) (Go.to_uint64 i)). split; [apply big_endian_length|].
      apply uncompactInt64_big_endian_negative; lia.
    + intros m Hm (p & Hlen & Hp).
      destruct (Nat.le_gt_cases (S j) m) as [H|H]; [exact H|]. exfalso.
      pose proof (uncompactInt64_negative_bounds p ltac:(lia)) as Hb.
      rewrite Hp, Hlen in Hb. pose proof (pow256_le m j ltac:(lia)).
      specialize (Hhi ltac:(lia)). lia.
  - unfold EncodeInt64. change SMALL_NEGATIVE_INT with (-8). change SMALL_POSITIVE_INT with 7.
    replace (i <? -8) with false by lia. replace (i >? 7) with true by lia.
    replace (0 <=? i) with true by lia.
    rewrite (to_uint64_id i) by (unfold Go.is_uint64; lia).
    destruct (compactInt64_positive_spec i ltac:(lia)) as (j & Hj & -> & Hhi & Hlo).
    cbn [payload tl]. rewrite big_endian_length. split; [split; [lia|]|].
    + exists (big_endian (S j) i). split; [apply big_endian_length|].
      apply uncompactInt64_big_endian_positive; lia.
    + intros m Hm (p & Hlen & Hp).
      destruct (Nat.le_gt_cases (S j) m) as [H|H]; [exact H|]. exfalso.
      pose proof (uncompactInt64_positive_bounds p ltac:(lia)) as Hb.
      rewrite Hp, Hlen in Hb. pose proof (pow256_le m j ltac:(lia)).
      specialize (Hlo ltac:(lia)). lia.
Qed.

Lemma EncodeUint64_payload_minimal (u : Z) :
  Go.is_uint64 u -> 16 < u ->
  smallest_count (fun n => representable_uint64 n u) (length (payload (EncodeUint64 u))).
Proof.
  unfold Go.is_uint64. intros Hu Hbig.
  unfold EncodeUint64. change SMALL_UINT with 16. replace (u <=? 16) with false by lia.
  destruct (compactUint64_spec u Hu) as (j & Hj & -> & Hhi & Hlo).
  cbn [payload tl]. rewrite big_endian_length. split; [split; [lia|]|].
  - exists (big_endian (S j) u). split; [apply big_endian_length|].
    apply uncompactUint64_big_endian; lia.
  - intros m Hm (p & Hlen & Hp).
    destruct (Nat.le_gt_cases (S j) m) as [H|H]; [exact H|]. exfalso.
    pose proof (uncompactUint64_bounds p ltac:(lia)) as Hb.
    rewrite Hp, Hlen in Hb. pose proof (pow256_le m j ltac:(lia)).
    specialize (Hlo ltac:(lia)). lia.
Qed.

(** ** Byte strings: the length bands of [EncodeBytes] *)

Lemma EncodeBytes_direct (bb : list byte) :
  Go.len bb <= 60 ->
  EncodeBytes bb = Returns (byte.of_Z (Z.lor BB_BYTES (Go.len bb)) :: bb).
Proof.
  intros H. unfold EncodeBytes. cbv zeta. replace (Go.len bb <=? 60) with true by zbool.
  rewrite unsigned_of_Z_small by (pose proof (len_nonneg bb); lia). reflexivity.
Qed.

Lemma EncodeBytes_ext1 (bb : list byte) :
  61 <= Go.len bb <= 316 ->
  EncodeBytes bb = Returns (byte.of_Z BB_BYTES_LEN_1 :: byte.of_Z (Go.len bb - 61) :: bb).
Proof.
  intros H. unfold EncodeBytes. cbv zeta.
  replace (Go.len bb <=? 60) with false by zbool.
  replace (Go.len bb <=? 61 + 255) with true by zbool. reflexivity.
Qed.

Lemma EncodeBytes_ext2 (bb : list byte) :
  317 <= Go.len bb <= 65852 ->
  EncodeBytes bb =
  Returns (byte.of_Z BB_BYTES_LEN_2 :: byte.of_Z (Z.shiftr (Go.len bb - 317) 8)
             :: byte.of_Z (Go.len bb - 317) :: bb).
Proof.
  intros H. unfold EncodeBytes. cbv zeta.
  replace (Go.len bb <=? 60) with false by zbool.
  replace (Go.len bb <=? 61 + 255) with false by zbool.
  replace (Go.len bb <=? 317 + 65535) with true by zbool. reflexivity.
Qed.

Lemma EncodeBytes_ext4 (bb : list byte) :
  65853 <= Go.len bb <= 65851 + 0xffffffff ->
  EncodeBytes bb =
  Returns (byte.of_Z BB_BYTES_LEN_4
             :: byte.of_Z (Z.shiftr (Go.len bb - 65851) 24)
             :: byte.of_Z (Z.shiftr (Go.len bb - 65851) 16)
             :: byte.of_Z (Z.shiftr (Go.len bb - 65851) 8)
             :: byte.of_Z (Go.len bb - 65851) :: bb).
Proof.
  intros H. unfold EncodeBytes. cbv zeta.
  replace (Go.len bb <=? 60) with false by zbool.
  replace (Go.len bb <=? 61 + 255) with false by zbool.
  replace (Go.len bb <=? 317 + 65535) with false by zbool.
  replace (Go.len bb <=? 65851 + 4294967295) with true by zbool. reflexivity.
Qed.

Lemma EncodeBytes_oversize (bb : list byte) :
  65851 + 0xffffffff < Go.len bb -> EncodeBytes bb = Panics "slice too long"%string.
Proof.
  intros H. unfold EncodeBytes. cbv zeta.
  replace (Go.len bb <=? 60) with false by zbool.
  replace (Go.len bb <=? 61 + 255) with false by zbool.
  replace (Go.len bb <=? 317 + 65535) with false by zbool.
  replace (Go.len bb <=? 65851 + 4294967295) with false by zbool. reflexivity.
Qed.

(** [BB_BYTES | byte(l)] against [BB_BYTES + l]: the two agree as long as
    bit 4 of the length is clear. *)
Lemma lor_BB_BYTES (l : Z) :
  0 <= l <= 60 ->
  Z.lor BB_BYTES l = if Z.testbit l 4 then l else BB_BYTES + l.
Proof.
  intros H. rewrite <- (Z2Nat.id l) by lia.
  assert (Hn : (Z.to_nat l <= 60)%nat) by lia. revert Hn. generalize (Z.to_nat l) as n.
  intros n Hn. do 61 (destruct n as [|n]; [reflexivity|]). lia.
Qed.

(** ** Byte strings: what [Decode] makes of the three kinds of header *)

Lemma Decode_ext1 (k : byte) (next : list byte) :
  Decode (byte.of_Z BB_BYTES_LEN_1 :: k :: next) =
  if Go.len next <? byte.unsigned k + 62 then corrupted
  else take GoBytes next (byte.unsigned k + 62).
Proof.
  rewrite Decode_cons. cbn [bind].
  change (byte.unsigned (byte.of_Z BB_BYTES_LEN_1)) with 0x4D.
  rewrite len_cons. replace (Go.len next + 1 <? 1) with false
    by (pose proof (len_nonneg next); zbool).
  rewrite index_cons_0, slice_from_cons_1. reflexivity.
Qed.

Lemma Decode_ext2 (k1 k2 : byte) (next : list byte) :
  Decode (byte.of_Z BB_BYTES_LEN_2 :: k1 :: k2 :: next) =
  if Go.len next <? byte.unsigned k1 * 256 + byte.unsigned k2 + 318 then corrupted
  else take GoBytes next (byte.unsigned k1 * 256 + byte.unsigned k2 + 318).
Proof.
  rewrite Decode_cons. cbn [bind].
  change (byte.unsigned (byte.of_Z BB_BYTES_LEN_2)) with 0x4E.
  rewrite !len_cons. replace (Go.len next + 1 + 1 <? 2) with false
    by (pose proof (len_nonneg next); zbool).
  rewrite index_cons_0, index_cons_1, slice_from_cons_2. reflexivity.
Qed.

(** The direct band: the decoder takes as many bytes as the tag says. *)
Lemma Decode_EncodeBytes_direct (bb : list byte) :
  Go.len bb <= 60 ->
  exists e : list byte,
    EncodeBytes bb = Returns e /\
    Decode e =
    let n := if Z.testbit (Go.len bb) 4 then Go.len bb - BB_BYTES else Go.len bb in
    Returns (GoBytes (firstn (Z.to_nat n) bb), skipn (Z.to_nat n) bb, None).
Proof.
  intros H. pose proof (len_nonneg bb) as H0.
  eexists. split; [apply EncodeBytes_direct; exact H|].
  rewrite lor_BB_BYTES by lia. cbv zeta. unfold BB_BYTES.
  assert (Hbit : Z.testbit (Go.len bb) 4 = true -> 16 <= Go.len bb).
  { intros Hb. destruct (Z.lt_ge_cases (Go.len bb) 16) as [Hlt|Hge]; [|exact Hge].
    rewrite <- (Z.mod_small (Go.len bb) (2 ^ 4)) in Hb by (change (2 ^ 4) with 16; lia).
    rewrite Z.mod_pow2_bits_high in Hb by lia. discriminate. }
  destruct (Z.testbit (Go.len bb) 4) eqn:Hb.
  - specialize (Hbit eq_refl).
    rewrite Decode_tag_bytes by (rewrite unsigned_of_Z_small; lia).
    rewrite unsigned_of_Z_small by lia.
    replace (Go.len bb <? Go.len bb - 16) with false by zbool.
    apply take_ok. lia.
  - rewrite Decode_tag_bytes by (rewrite unsigned_of_Z_small; lia).
    rewrite unsigned_of_Z_small by lia.
    replace (16 + Go.len bb - 16) with (Go.len bb) by lia.
    replace (Go.len bb <? Go.len bb) with false by zbool.
    apply take_ok. lia.
Qed.

(** Where the direct band round-trips: lengths 0..15 and 32..47. *)
Lemma Decode_EncodeBytes_bit4_clear (bb : list byte) :
  Go.len bb <= 60 -> Z.testbit (Go.len bb) 4 = false ->
  exists e : list byte,
    EncodeBytes bb = Returns e /\ Decode e = Returns (GoBytes bb, [], None).
Proof.
  intros H Hb. destruct (Decode_EncodeBytes_direct bb H) as (e & He & Hd).
  exists e. split; [exact He|]. rewrite Hd, Hb. cbv zeta.
  unfold Go.len. rewrite Nat2Z.id, firstn_all, skipn_all. reflexivity.
Qed.

(** The 1- and 2-extension-byte bands: the decoder asks for one byte more
    than the encoder wrote. *)
Lemma Decode_EncodeBytes_ext1 (bb : list byte) :
  61 <= Go.len bb <= 316 ->
  exists e : list byte, EncodeBytes bb = Returns e /\ Decode e = corrupted.
Proof.
  intros H. eexists. split; [apply EncodeBytes_ext1; exact H|].
  rewrite Decode_ext1, unsigned_of_Z_small by lia.
  replace (Go.len bb <? Go.len bb - 61 + 62) with true by zbool. reflexivity.
Qed.

Lemma Decode_EncodeBytes_ext2 (bb : list byte) :
  317 <= Go.len bb <= 65852 ->
  exists e : list byte, EncodeBytes bb = Returns e /\ Decode e = corrupted.
Proof.
  intros H. eexists. split; [apply EncodeBytes_ext2; exact H|].
  rewrite Decode_ext2, !byte.unsigned_of_Z. unfold byte.wrap.
  rewrite Z.shiftr_div_pow2 by lia. change (2 ^ 8) with 256.
  replace (Go.len bb <? (Go.len bb - 317) / 256 mod 256 * 256 + (Go.len bb - 317) mod 256 + 318)
    with true; [reflexivity|].
  symmetry. apply Z.ltb_lt. Z.to_euclidean_division_equations. lia.
Qed.

(** The 4-extension-byte band shares the tag of the 2-extension-byte band:
    the decoder reads the two high length bytes as the whole length and hands
    out the two low length bytes with the start of the content. *)
Lemma Decode_EncodeBytes_ext4 (bb : list byte) :
  65853 <= Go.len bb <= 65851 + 0xffffffff ->
  exists (e v rest : list byte),
    EncodeBytes bb = Returns e /\
    Decode e = Returns (GoBytes v, rest, None) /\
    Go.len v = 318 + (Go.len bb - 65851) / 65536 /\
    Go.len v + Go.len rest = Go.len bb + 2 /\
    v ++ rest = byte.of_Z (Z.shiftr (Go.len bb - 65851) 8)
                  :: byte.of_Z (Go.len bb - 65851) :: bb.
Proof.
  intros H. set (l := Go.len bb) in *.
  set (n := 318 + (l - 65851) / 65536).
  assert (Hn : 318 <= n <= 65853).
  { unfold n. Z.to_euclidean_division_equations. lia. }
  set (next := byte.of_Z (Z.shiftr (l - 65851) 8) :: byte.of_Z (l - 65851) :: bb).
  assert (Hnext : Go.len next = l + 2) by (unfold next; rewrite !len_cons; fold l; lia).
  exists (byte.of_Z BB_BYTES_LEN_4 :: byte.of_Z (Z.shiftr (l - 65851) 24)
            :: byte.of_Z (Z.shiftr (l - 65851) 16) :: next),
         (firstn (Z.to_nat n) next), (skipn (Z.to_nat n) next).
  split; [apply EncodeBytes_ext4; exact H|].
  assert (Hk : byte.unsigned (byte.of_Z (Z.shiftr (l - 65851) 24)) * 256
               + byte.unsigned (byte.of_Z (Z.shiftr (l - 65851) 16)) + 318 = n).
  { rewrite !byte.unsigned_of_Z. unfold byte.wrap, n.
    rewrite !Z.shiftr_div_pow2 by lia.
    change (2 ^ 8) with 256. change (2 ^ 24) with 16777216. change (2 ^ 16) with 65536.
    Z.to_euclidean_division_equations. lia. }
  split; [|split; [|split]].
  - change BB_BYTES_LEN_4 with BB_BYTES_LEN_2. rewrite Decode_ext2, Hk.
    replace (Go.len next <? n) with false by zbool.
    apply take_ok. lia.
  - unfold Go.len. rewrite length_firstn. unfold Go.len in Hnext. lia.
  - rewrite <- len_app, firstn_skipn. exact Hnext.
  - apply firstn_skipn.
Qed.

(** ** Tuples without byte strings *)

Lemma EncodeNils_loop_plain (nilFirst : bool) (xs : list value) (b : list byte) :
  Forall plain xs ->
  EncodeNils_loop nilFirst xs b = Returns (b ++ flat_map (encode_plain nilFirst) xs, None).
Proof.
  intros H. revert b. induction H as [|x xs Hx Hxs IH]; intros b.
  - cbn. rewrite app_nil_r. reflexivity.
  - cbn [EncodeNils_loop flat_map].
    destruct x; try contradiction; cbn [EncodeNils_step bind encode_plain];
      rewrite IH, <- app_assoc; reflexivity.
Qed.

Lemma Decode_encode_plain (nilFirst : bool) (x : value) (rest : list byte) :
  plain x ->
  Decode (encode_plain nilFirst x ++ rest) = Returns (decoded_plain x, rest, None).
Proof.
  intros H. destruct x; try contradiction; cbn [encode_plain decoded_plain plain] in *.
  - destruct nilFirst; cbn [EncodeNil NilFirst NilLast app]; rewrite Decode_cons; reflexivity.
  - destruct b; cbn [EncodeBool True_ False_ app]; rewrite Decode_cons; reflexivity.
  - unfold EncodeInt. rewrite to_int64_id by exact H. apply Decode_EncodeInt64_app. exact H.
  - apply Decode_EncodeInt64_app. exact H.
  - apply Decode_EncodeUint64_app. exact H.
Qed.

Lemma Compare_by_order (a b ra rb : list byte) (x y : Z) :
  (x < y -> forall ra rb, Go.Compare (a ++ ra) (b ++ rb) = Lt) ->
  (y < x -> forall ra rb, Go.Compare (b ++ ra) (a ++ rb) = Lt) ->
  (x = y -> a = b) ->
  Go.Compare (a ++ ra) (b ++ rb) = match x ?= y with Eq => Go.Compare ra rb | c => c end.
Proof.
  intros Hlt Hgt Heq. destruct (Z.compare_spec x y) as [E|L|G].
  - rewrite (Heq E). apply Compare_app_prefix.
  - apply Hlt. exact L.
  - rewrite Compare_antisym, (Hgt G). reflexivity.
Qed.

(** Two plain values of one category settle the comparison of the buffers
    their encodings start, unless they are equal. *)
Lemma encode_plain_decides (nilFirst : bool) (x y : value) (ra rb : list byte) :
  plain x -> plain y ->
  (exists c, category_of x = Some c /\ category_of y = Some c) ->
  Go.Compare (encode_plain nilFirst x ++ ra) (encode_plain nilFirst y ++ rb)
  = match value_order x y with Eq => Go.Compare ra rb | c => c end.
Proof.
  intros Hx Hy (c & Cx & Cy).
  assert (Hint : forall a b, Go.is_int64 a -> Go.is_int64 b ->
            Go.Compare (EncodeInt64 a ++ ra) (EncodeInt64 b ++ rb)
            = match a ?= b with Eq => Go.Compare ra rb | c => c end).
  { intros a b Ha Hb. apply Compare_by_order.
    - intros L ra' rb'. apply EncodeInt64_lt_app; assumption.
    - intros G ra' rb'. apply EncodeInt64_lt_app; assumption.
    - intros ->. reflexivity. }
  destruct x, y; cbn [plain] in Hx, Hy; try contradiction;
    cbn [category_of] in Cx, Cy; try congruence;
    cbn [encode_plain value_order]; unfold EncodeInt;
    rewrite ?to_int64_id by assumption; try (apply Hint; assumption).
  - apply Compare_app_prefix.
  - destruct b, b0; reflexivity.
  - apply Compare_by_order.
    + intros L ra' rb'. apply EncodeUint64_lt_app; assumption.
    + intros G ra' rb'. apply EncodeUint64_lt_app; assumption.
    + intros ->. reflexivity.
Qed.

(** ** The first byte of an encoding *)

Lemma EncodeInt64_tag (i : Z) :
  Go.is_int64 i ->
  exists (t : Z) (p : list byte), EncodeInt64 i = byte.of_Z t :: p /\ 0x60 <= t <= 0xEF.
Proof.
  unfold Go.is_int64. intros Hi.
  destruct (Z_lt_dec i (-8)) as [Hneg|Hn8]; [|destruct (Z_gt_dec i 7) as [Hpos|Hn7]].
  - unfold EncodeInt64. change SMALL_NEGATIVE_INT with (-8).
    replace (i <? -8) with true by lia.
    destruct (compactInt64_negative_spec i ltac:(lia)) as (j & Hj & -> & _).
    do 2 eexists. split; [reflexivity|lia].
  - unfold EncodeInt64. change SMALL_NEGATIVE_INT with (-8). change SMALL_POSITIVE_INT with 7.
    replace (i <? -8) with false by lia. replace (i >? 7) with true by lia.
    rewrite (to_uint64_id i) by (unfold Go.is_uint64; lia).
    destruct (compactInt64_positive_spec i ltac:(lia)) as (j & Hj & -> & _).
    do 2 eexists. split; [reflexivity|lia].
  - rewrite EncodeInt64_small by lia.
    do 2 eexists. split; [reflexivity|]. destruct (Z.ltb_spec i 0); lia.
Qed.

Lemma EncodeUint64_tag (u : Z) :
  Go.is_uint64 u ->
  exists (t : Z) (p : list byte), EncodeUint64 u = byte.of_Z t :: p /\ 0x80 <= t <= 0x98.
Proof.
  unfold Go.is_uint64. intros Hu. destruct (Z_le_dec u 16) as [Hs|Hb].
  - rewrite EncodeUint64_small by lia. do 2 eexists. split; [reflexivity|lia].
  - unfold EncodeUint64. change SMALL_UINT with 16. replace (u <=? 16) with false by lia.
    destruct (compactUint64_spec u Hu) as (j & Hj & -> & _).
    do 2 eexists. split; [reflexivity|lia].
Qed.

Lemma EncodeBytes_tag (bb e : list byte) :
  EncodeBytes bb = Returns e ->
  exists (t : Z) (p : list byte), e = byte.of_Z t :: p /\ 0x10 <= t <= 0x4E.
Proof.
  intros H. pose proof (len_nonneg bb) as H0.
  destruct (Z_le_dec (Go.len bb) 60) as [H1|H1];
    [|destruct (Z_le_dec (Go.len bb) 316) as [H2|H2];
      [|destruct (Z_le_dec (Go.len bb) 65852) as [H3|H3];
        [|destruct (Z_le_dec (Go.len bb) (65851 + 0xffffffff)) as [H4|H4]]]].
  - rewrite EncodeBytes_direct in H by lia. inversion H.
    exists (Z.lor BB_BYTES (Go.len bb)), bb. split; [reflexivity|].
    rewrite lor_BB_BYTES by lia.
    unfold BB_BYTES. destruct (Z.testbit (Go.len bb) 4) eqn:Hb; [|lia].
    split; [|lia]. destruct (Z.lt_ge_cases (Go.len bb) 16) as [Hlt|Hge]; [|lia].
    rewrite <- (Z.mod_small (Go.len bb) (2 ^ 4)) in Hb by (change (2 ^ 4) with 16; lia).
    rewrite Z.mod_pow2_bits_high in Hb by lia. discriminate.
  - rewrite EncodeBytes_ext1 in H by lia. inversion H.
    do 2 eexists. split; [reflexivity|]. unfold BB_BYTES_LEN_1. lia.
  - rewrite EncodeBytes_ext2 in H by lia. inversion H.
    do 2 eexists. split; [reflexivity|]. unfold BB_BYTES_LEN_2. lia.
  - rewrite EncodeBytes_ext4 in H by lia. inversion H.
    do 2 eexists. split; [reflexivity|]. unfold BB_BYTES_LEN_4. lia.
  - rewrite EncodeBytes_oversize in H by lia. discriminate.
Qed.

(** * The claims *)

(** C1. Order preservation within one type: for [a < b] the encoding of [a]
    is below the encoding of [b] in unsigned lexicographic order, for signed
    integers, for unsigned integers, and for byte strings ordered by length
    and then content. The integer encoders do preserve the order
    ([EncodeInt64_order], [EncodeUint64_order] below). [EncodeBytes] does
    not: it forms the tag of the direct band as [BB_BYTES | byte(l)], so a
    string of 16 bytes gets the tag [0x10] of the empty string, and the
    encoding of 15 zero bytes (tag [0x1f]) sorts above the encoding of 16
    zero bytes. *)
Theorem EncodeBytes_order_violated :
  let a := repeat Byte.x00 15 in
  let b := repeat Byte.x00 16 in
  bytes_order a b = Lt /\
  EncodeBytes a = Returns (Byte.x1f :: a) /\
  EncodeBytes b = Returns (Byte.x10 :: b) /\
  Go.Compare (Byte.x1f :: a) (Byte.x10 :: b) = Gt.
Proof. cbv zeta. repeat apply conj; vm_compute; reflexivity. Qed.

(** C2. Round trip: [Decode] applied to the encoding of a supported value
    gives the value back with an empty remainder. This holds for the nil
    sentinels, the booleans and all 64-bit integers ([Decode_EncodeNil],
    [Decode_EncodeBool], [Decode_EncodeInt64], [Decode_EncodeUint64] below);
    it fails for byte strings. Sixteen zero bytes are encoded under the tag
    [0x10] and decode to the empty string with all sixteen bytes left over;
    61 bytes are encoded with the length byte [l - 61], the decoder adds 62
    to it and reports a corrupted buffer. *)
Theorem Decode_EncodeBytes_round_trip_fails :
  let b16 := repeat Byte.x00 16 in
  let b61 := repeat Byte.x00 61 in
  EncodeBytes b16 = Returns (Byte.x10 :: b16) /\
  Decode (Byte.x10 :: b16) = Returns (GoBytes [], b16, None) /\
  EncodeBytes b61 = Returns (Byte.x4d :: Byte.x00 :: b61) /\
  Decode (Byte.x4d :: Byte.x00 :: b61) = Returns (GoNil, [], Some CorruptedBufferError).
Proof. cbv zeta. repeat apply conj; vm_compute; reflexivity. Qed.

(** C3. Tuple ordering: for two tuples of one shape, the unsigned
    lexicographic order of their encodings is the standard tuple order of the
    values. It holds for tuples without byte strings ([Encode_tuple_order]
    below) and fails with them, by the tag defect of C1: the one-element
    tuple of 15 zero bytes is below the one of 16 zero bytes, and its
    encoding is above. *)
Theorem Encode_tuple_order_violated :
  let a := repeat Byte.x00 15 in
  let b := repeat Byte.x00 16 in
  same_shape [GoBytes a] [GoBytes b] /\
  tuple_order [GoBytes a] [GoBytes b] = Lt /\
  Encode [GoBytes a] = Returns (Byte.x1f :: a, None) /\
  Encode [GoBytes b] = Returns (Byte.x10 :: b, None) /\
  Go.Compare (Byte.x1f :: a) (Byte.x10 :: b) = Gt.
Proof.
  cbv zeta. apply conj.
  - constructor; [|constructor]. exists ByteString. apply conj; reflexivity.
  - repeat apply conj; vm_compute; reflexivity.
Qed.

(** C4. The band boundaries of [EncodeBytes]: 60 bytes take the direct band
    and 61 the band with one length byte, 316 the band with one length byte
    and 317 the band with two; and decoding gives the string back at each of
    the four lengths. The bands change where the claim says. No decoding
    gives the string back: at 60 the tag is [0x10 | 60 = 0x3c], which the
    decoder reads as 44 bytes; at 61, 316 and 317 the decoder expects one
    byte more than was written (it adds 62 and 318 where the encoder
    subtracted 61 and 317) and reports a corrupted buffer. *)
Theorem EncodeBytes_boundary_lengths :
  let s := fun n : nat => repeat Byte.x01 n in
  EncodeBytes (s 60%nat) = Returns (Byte.x3c :: s 60%nat) /\
  EncodeBytes (s 61%nat) = Returns (Byte.x4d :: Byte.x00 :: s 61%nat) /\
  EncodeBytes (s 316%nat) = Returns (Byte.x4d :: Byte.xff :: s 316%nat) /\
  EncodeBytes (s 317%nat) = Returns (Byte.x4e :: Byte.x00 :: Byte.x00 :: s 317%nat) /\
  Decode (Byte.x3c :: s 60%nat) = Returns (GoBytes (s 44%nat), s 16%nat, None) /\
  Decode (Byte.x4d :: Byte.x00 :: s 61%nat) = Returns (GoNil, [], Some CorruptedBufferError) /\
  Decode (Byte.x4d :: Byte.xff :: s 316%nat) = Returns (GoNil, [], Some CorruptedBufferError) /\
  Decode (Byte.x4e :: Byte.x00 :: Byte.x00 :: s 317%nat)
  = Returns (GoNil, [], Some CorruptedBufferError).
Proof. cbv zeta beta. repeat apply conj; vm_compute; reflexivity. Qed.

Lemma app_eq_length (a a' b b' : list byte) :
  length a = length a' -> a ++ b = a' ++ b' -> a = a' /\ b = b'.
Proof.
  revert a'. induction a as [|x a IH]; intros [|x' a'] Hl H; try discriminate.
  - auto.
  - cbn in H, Hl. inversion H; subst. destruct (IH a') as [-> ->]; auto.
Qed.

(** C5. A byte string long enough for the band with four length bytes
    (longer than 65852 bytes) is encoded into a buffer that [Decode] rejects.
    The code does not reject it: [BB_BYTES_LEN_4] is [0x4E], the tag of the
    band with two length bytes (the package comment gives [4F]), so [Decode]
    takes the first two of the four length bytes for the length and returns,
    with no error, a string that is not the one encoded. For 65853 zero
    bytes it returns the 318 bytes [00 02 00 ... 00] (the two low length
    bytes and 316 bytes of content) and leaves 65537 bytes. *)
Theorem Decode_EncodeBytes_ext4_example :
  let bb := repeat Byte.x00 (Z.to_nat 65853) in
  exists e : list byte,
    EncodeBytes bb = Returns e /\
    Decode e = Returns (GoBytes (Byte.x00 :: Byte.x02 :: repeat Byte.x00 316),
                        repeat Byte.x00 (Z.to_nat 65537), None).
Proof.
  intros bb.
  assert (Hl : Go.len bb = 65853).
  { unfold bb, Go.len. rewrite repeat_length. apply Z2Nat.id. lia. }
  destruct (Decode_EncodeBytes_ext4 bb ltac:(lia)) as (e & v & rest & He & Hd & Hv & _ & Happ).
  exists e. split; [exact He|]. rewrite Hd. rewrite Hl in Hv, Happ.
  change (byte.of_Z (Z.shiftr (65853 - 65851) 8)) with Byte.x00 in Happ.
  change (byte.of_Z (65853 - 65851)) with Byte.x02 in Happ.
  change ((65853 - 65851) / 65536) with 0 in Hv.
  assert (Hbb : bb = repeat Byte.x00 316 ++ repeat Byte.x00 (Z.to_nat 65537)).
  { unfold bb. rewrite <- repeat_app. f_equal; lia. }
  rewrite Hbb in Happ.
  change (Byte.x00 :: Byte.x02 :: repeat Byte.x00 316 ++ repeat Byte.x00 (Z.to_nat 65537))
    with ((Byte.x00 :: Byte.x02 :: repeat Byte.x00 316) ++ repeat Byte.x00 (Z.to_nat 65537))
    in Happ.
  apply app_eq_length in Happ.
  - destruct Happ as [-> ->]. reflexivity.
  - unfold Go.len in Hv. cbn [length]. rewrite repeat_length. lia.
Qed.

(** C6. Minimality: outside the small literals (-8..7 signed, 0..16
    unsigned) the payload of an encoded integer has the smallest number of
    bytes, between 1 and 8, from which the decoder of its band reads the
    integer back: the positive band reads the payload as an unsigned
    big-endian number, the negative band reads it below bytes that are all
    [0xff]. *)
Theorem compacted_payload_minimal (i u : Z) :
  Go.is_int64 i -> i < -8 \/ 7 < i ->
  Go.is_uint64 u -> 16 < u ->
  smallest_count (fun n => representable_int64 (0 <=? i) n i)
                 (length (payload (EncodeInt64 i))) /\
  smallest_count (fun n => representable_uint64 n u)
                 (length (payload (EncodeUint64 u))).
Proof.
  intros Hi Hout Hu Hbig. split.
  - apply EncodeInt64_payload_minimal; assumption.
  - apply EncodeUint64_payload_minimal; assumption.
Qed.

Lemma compacted_payload_minimal_witness :
  (Go.is_int64 (-1000) /\ Go.is_uint64 70000) /\
  smallest_count (fun n => representable_int64 (0 <=? -1000) n (-1000))
                 (length (payload (EncodeInt64 (-1000)))) /\
  smallest_count (fun n => representable_uint64 n 70000)
                 (length (payload (EncodeUint64 70000))).
Proof.
  split.
  - unfold Go.is_int64, Go.is_uint64. lia.
  - apply (compacted_payload_minimal (-1000) 70000);
      unfold Go.is_int64, Go.is_uint64; lia.
Defined.

(** C7. [DecodeAll] always returns, and what it returns is decided by the
    first single step that fails: the steps before it decode the values
    [vs]; when that step reports [EmptyBufferError], [DecodeAll] returns the
    values decoded so far and no error; when it reports any other error,
    [DecodeAll] returns that error and a nil list. There is one such run of
    single steps only, so [DecodeAll] succeeds exactly when the failing step
    reports [EmptyBufferError]. *)
Theorem DecodeAll_first_error (strings : bool) (b : list byte) :
  exists (vs : list value) (rest : list byte) (e : error),
    decodes b vs rest /\
    Decode rest = Returns (GoNil, [], Some e) /\
    DecodeAll strings b =
    Returns (match e with
             | EmptyBufferError => (map (handed_out strings) vs, None)
             | _ => ([], Some e)
             end) /\
    forall (vs' : list value) (rest' : list byte) (e' : error),
      decodes b vs' rest' -> Decode rest' = Returns (GoNil, [], Some e') ->
      vs' = vs /\ rest' = rest /\ e' = e.
Proof.
  destruct (DecodeAll_loop_spec strings b []) as (vs & rest & e & Hvs & He & Hall).
  exists vs, rest, e. split; [exact Hvs|]. split; [exact He|]. split; [exact Hall|].
  intros vs' rest' e' Hvs' He'.
  apply (decodes_deterministic b vs' vs rest' rest e' e); assumption.
Qed.

(** C8, as the code has it: given a byte string longer than the largest
    length band (more than [65851 + 0xffffffff] bytes), [EncodeBytes] does
    not hand the caller a result or an error value: it panics with
    "slice too long". *)
Theorem EncodeBytes_oversize_panics (bb : list byte) :
  65851 + 0xffffffff < Go.len bb ->
  EncodeBytes bb = Panics "slice too long"%string /\
  forall e : list byte, EncodeBytes bb <> Returns e.
Proof.
  intros H. rewrite EncodeBytes_oversize by exact H. split.
  - reflexivity.
  - intros e. discriminate.
Qed.

Lemma oversize_len : Go.len oversize = 65851 + 0xffffffff + 1.
Proof. unfold oversize, Go.len. rewrite repeat_length. apply Z2Nat.id. lia. Qed.

Lemma EncodeBytes_oversize_panics_witness :
  65851 + 0xffffffff < Go.len oversize /\
  EncodeBytes oversize = Panics "slice too long"%string /\
  forall e : list byte, EncodeBytes oversize <> Returns e.
Proof.
  split.
  - rewrite oversize_len. lia.
  - apply (EncodeBytes_oversize_panics oversize). rewrite oversize_len. lia.
Defined.

(** C8, as stated: the oversize condition reaches the caller as a result or
    error value and not as a trap. On [oversize] the encoder traps. *)
Lemma EncodeBytes_oversize_is_a_panic :
  EncodeBytes oversize = Panics "slice too long"%string.
Proof. apply EncodeBytes_oversize. rewrite oversize_len. lia. Qed.

(** C9. [Decode] never panics and returns a value, [EmptyBufferError] or
    [CorruptedBufferError] ([Decode_never_panics] below), and the tags
    [0x4F], [0x50]..[0x5F] and [0xF0]..[0xF7] are corrupted buffers
    ([Decode_reserved_tags] below). The tags [0x70]..[0x73] of the reserved
    double range are not: [BB_INT_MASK] is [0xE8], which leaves bit 4 out, so
    [0x70]..[0x77] pass the test for a compacted negative integer. Each of
    the tags [0x70]..[0x73] followed by eight zero bytes decodes to an
    integer: 0, [-2^56], [-2^48] and [-2^40]. *)
Theorem Decode_reserved_double_tag :
  let zeros := repeat Byte.x00 8 in
  Decode (Byte.x70 :: zeros) = Returns (GoInt64 0, [], None) /\
  Decode (Byte.x71 :: zeros) = Returns (GoInt64 (- 2 ^ 56), repeat Byte.x00 1, None) /\
  Decode (Byte.x72 :: zeros) = Returns (GoInt64 (- 2 ^ 48), repeat Byte.x00 2, None) /\
  Decode (Byte.x73 :: zeros) = Returns (GoInt64 (- 2 ^ 40), repeat Byte.x00 3, None).
Proof. cbv zeta. repeat apply conj; vm_compute; reflexivity. Qed.

(** C10. [Decode] maps both nil sentinels to the same nil value: whatever the
    ordering flag given to [EncodeNil], and whatever follows the sentinel,
    [Decode] returns nil and what follows. *)
Theorem Decode_EncodeNil (first : bool) (rest : list byte) :
  Decode (EncodeNil first) = Returns (GoNil, [], None) /\
  Decode (EncodeNil first ++ rest) = Returns (GoNil, rest, None).
Proof.
  destruct first; cbn [EncodeNil NilFirst NilLast app]; rewrite !Decode_cons;
    split; reflexivity.
Qed.

(** * Further properties of the code *)

(** X1. [EncodeInt64] preserves the order of the signed 64-bit integers. *)
Theorem EncodeInt64_order (a b : Z) :
  Go.is_int64 a -> Go.is_int64 b ->
  Go.Compare (EncodeInt64 a) (EncodeInt64 b) = (a ?= b).
Proof.
  intros Ha Hb.
  rewrite <- (app_nil_r (EncodeInt64 a)), <- (app_nil_r (EncodeInt64 b)).
  rewrite (Compare_by_order _ _ [] [] a b).
  - destruct (a ?= b); reflexivity.
  - intros L ra rb. apply EncodeInt64_lt_app; assumption.
  - intros G ra rb. apply EncodeInt64_lt_app; assumption.
  - intros ->. reflexivity.
Qed.

Lemma EncodeInt64_order_witness :
  (Go.is_int64 (-1000000000) /\ Go.is_int64 (-1)) /\
  Go.Compare (EncodeInt64 (-1000000000)) (EncodeInt64 (-1)) = (-1000000000 ?= -1).
Proof.
  split.
  - unfold Go.is_int64. lia.
  - apply (EncodeInt64_order (-1000000000) (-1)); unfold Go.is_int64; lia.
Defined.

(** X2. [EncodeUint64] preserves the order of the unsigned 64-bit integers. *)
Theorem EncodeUint64_order (a b : Z) :
  Go.is_uint64 a -> Go.is_uint64 b ->
  Go.Compare (EncodeUint64 a) (EncodeUint64 b) = (a ?= b).
Proof.
  intros Ha Hb.
  rewrite <- (app_nil_r (EncodeUint64 a)), <- (app_nil_r (EncodeUint64 b)).
  rewrite (Compare_by_order _ _ [] [] a b).
  - destruct (a ?= b); reflexivity.
  - intros L ra rb. apply EncodeUint64_lt_app; assumption.
  - intros G ra rb. apply EncodeUint64_lt_app; assumption.
  - intros ->. reflexivity.
Qed.

Lemma EncodeUint64_order_witness :
  (Go.is_uint64 16 /\ Go.is_uint64 255) /\
  Go.Compare (EncodeUint64 16) (EncodeUint64 255) = (16 ?= 255).
Proof.
  split.
  - unfold Go.is_uint64. lia.
  - apply (EncodeUint64_order 16 255); unfold Go.is_uint64; lia.
Defined.

(** X3. Round trip of the signed integers, whatever follows the encoding. *)
Theorem Decode_EncodeInt64 (i : Z) (rest : list byte) :
  Go.is_int64 i ->
  Decode (EncodeInt64 i) = Returns (GoInt64 i, [], None) /\
  Decode (EncodeInt64 i ++ rest) = Returns (GoInt64 i, rest, None).
Proof.
  intros Hi. split.
  - rewrite <- (app_nil_r (EncodeInt64 i)). apply Decode_EncodeInt64_app. exact Hi.
  - apply Decode_EncodeInt64_app. exact Hi.
Qed.

Lemma Decode_EncodeInt64_witness :
  Go.is_int64 (- 2 ^ 63) /\
  Decode (EncodeInt64 (- 2 ^ 63)) = Returns (GoInt64 (- 2 ^ 63), [], None) /\
  Decode (EncodeInt64 (- 2 ^ 63) ++ [Byte.x0f])
  = Returns (GoInt64 (- 2 ^ 63), [Byte.x0f], None).
Proof.
  split.
  - unfold Go.is_int64. lia.
  - apply (Decode_EncodeInt64 (- 2 ^ 63) [Byte.x0f]). unfold Go.is_int64. lia.
Defined.

(** X4. Round trip of the unsigned integers, whatever follows the encoding. *)
Theorem Decode_EncodeUint64 (u : Z) (rest : list byte) :
  Go.is_uint64 u ->
  Decode (EncodeUint64 u) = Returns (GoUint64 u, [], None) /\
  Decode (EncodeUint64 u ++ rest) = Returns (GoUint64 u, rest, None).
Proof.
  intros Hu. split.
  - rewrite <- (app_nil_r (EncodeUint64 u)). apply Decode_EncodeUint64_app. exact Hu.
  - apply Decode_EncodeUint64_app. exact Hu.
Qed.

Lemma Decode_EncodeUint64_witness :
  Go.is_uint64 (2 ^ 64 - 1) /\
  Decode (EncodeUint64 (2 ^ 64 - 1)) = Returns (GoUint64 (2 ^ 64 - 1), [], None) /\
  Decode (EncodeUint64 (2 ^ 64 - 1) ++ [Byte.x0f])
  = Returns (GoUint64 (2 ^ 64 - 1), [Byte.x0f], None).
Proof.
  split.
  - unfold Go.is_uint64. lia.
  - apply (Decode_EncodeUint64 (2 ^ 64 - 1) [Byte.x0f]). unfold Go.is_uint64. lia.
Defined.

(** X5. Round trip of the booleans. *)
Theorem Decode_EncodeBool (b : bool) (rest : list byte) :
  Decode (EncodeBool b ++ rest) = Returns (GoBool b, rest, None).
Proof. destruct b; cbn [EncodeBool True_ False_ app]; rewrite Decode_cons; reflexivity. Qed.

(** X6. [Decode] never panics: it returns a value and a strictly shorter
    remainder, or [EmptyBufferError] on the empty buffer and only there, or
    [CorruptedBufferError]. *)
Theorem Decode_never_panics (b : list byte) :
  (b = [] /\ Decode b = Returns (GoNil, [], Some EmptyBufferError)) \/
  (b <> [] /\ Decode b = Returns (GoNil, [], Some CorruptedBufferError)) \/
  (b <> [] /\ exists v next, Decode b = Returns (v, next, None) /\
                             (length next < length b)%nat).
Proof.
  pose proof (Decode_total b) as Ht.
  inversion Ht as [v next Hb Hd | Hb Hd | Hb Hd]; symmetry in Hd.
  - right. right. split; [exact Hb|]. exists v, next. split; [reflexivity|].
    eapply Decode_consumes. exact Hd.
  - left. split; [exact Hb | reflexivity].
  - right. left. split; [exact Hb | reflexivity].
Qed.

(** X7. The tags [Decode] takes for a corrupted buffer whatever follows:
    [0x01]..[0x0D], [0x4F], the date range [0x50]..[0x5F], [0x78]..[0x7F],
    [0x99]..[0xDF] and [0xF0]..[0xF7]. *)
Theorem Decode_reserved_tags (x : byte) (next : list byte) :
  0x01 <= byte.unsigned x <= 0x0D \/ byte.unsigned x = 0x4F \/
  0x50 <= byte.unsigned x <= 0x5F \/ 0x78 <= byte.unsigned x <= 0x7F \/
  0x99 <= byte.unsigned x <= 0xDF \/ 0xF0 <= byte.unsigned x <= 0xF7 ->
  Decode (x :: next) = Returns (GoNil, [], Some CorruptedBufferError).
Proof. intros H. tag_cases x H. Qed.

Lemma Decode_reserved_tags_witness :
  byte.unsigned Byte.x4f = 0x4F /\
  Decode [Byte.x4f; Byte.x00] = Returns (GoNil, [], Some CorruptedBufferError).
Proof.
  split.
  - reflexivity.
  - apply (Decode_reserved_tags Byte.x4f [Byte.x00]). right. left. reflexivity.
Defined.

(** X8. Tuple ordering holds for tuples without byte strings: for two
    tuples of one shape made of nil, booleans and integers, the unsigned
    lexicographic order of the encodings is the standard tuple order of the
    values. *)
Theorem Encode_tuple_order (nilFirst : bool) (xs ys : list value) :
  Forall plain xs -> Forall plain ys -> same_shape xs ys ->
  exists ex ey : list byte,
    EncodeNils nilFirst xs = Returns (ex, None) /\
    EncodeNils nilFirst ys = Returns (ey, None) /\
    Go.Compare ex ey = tuple_order xs ys.
Proof.
  intros Hxs Hys Hshape. unfold EncodeNils.
  rewrite !EncodeNils_loop_plain by assumption. cbn [app].
  do 2 eexists. split; [reflexivity|]. split; [reflexivity|].
  induction Hshape as [|x y xs ys Hxy Hrest IH].
  - reflexivity.
  - inversion Hxs; subst. inversion Hys; subst.
    cbn [flat_map tuple_order]. rewrite encode_plain_decides by assumption.
    rewrite IH by assumption. reflexivity.
Qed.

Lemma Encode_tuple_order_witness :
  (Forall plain [GoNil; GoInt 50; GoInt 1000000] /\
   Forall plain [GoNil; GoInt 300; GoInt 1] /\
   same_shape [GoNil; GoInt 50; GoInt 1000000] [GoNil; GoInt 300; GoInt 1]) /\
  exists ex ey : list byte,
    EncodeNils true [GoNil; GoInt 50; GoInt 1000000] = Returns (ex, None) /\
    EncodeNils true [GoNil; GoInt 300; GoInt 1] = Returns (ey, None) /\
    Go.Compare ex ey = tuple_order [GoNil; GoInt 50; GoInt 1000000] [GoNil; GoInt 300; GoInt 1].
Proof.
  assert (Hx : Forall plain [GoNil; GoInt 50; GoInt 1000000])
    by (repeat constructor; unfold Go.is_int64; lia).
  assert (Hy : Forall plain [GoNil; GoInt 300; GoInt 1])
    by (repeat constructor; unfold Go.is_int64; lia).
  assert (Hs : same_shape [GoNil; GoInt 50; GoInt 1000000] [GoNil; GoInt 300; GoInt 1])
    by (repeat constructor; eexists; split; reflexivity).
  split.
  - auto.
  - exact (Encode_tuple_order true _ _ Hx Hy Hs).
Defined.

(** X9. Every byte string of 61 to 65852 bytes is encoded into a buffer that
    [Decode] reports as corrupted: the decoder adds 62 and 318 to the length
    bytes where the encoder subtracted 61 and 317. *)
Theorem Decode_EncodeBytes_extension_bands (bb : list byte) :
  61 <= Go.len bb <= 65852 ->
  exists e : list byte,
    EncodeBytes bb = Returns e /\
    Decode e = Returns (GoNil, [], Some CorruptedBufferError).
Proof.
  intros H. destruct (Z_le_dec (Go.len bb) 316) as [H1|H1].
  - apply Decode_EncodeBytes_ext1. lia.
  - apply Decode_EncodeBytes_ext2. lia.
Qed.

Lemma Decode_EncodeBytes_extension_bands_witness :
  61 <= Go.len (repeat Byte.x61 80) <= 65852 /\
  exists e : list byte,
    EncodeBytes (repeat Byte.x61 80) = Returns e /\
    Decode e = Returns (GoNil, [], Some CorruptedBufferError).
Proof.
  split.
  - vm_compute. split; discriminate.
  - apply (Decode_EncodeBytes_extension_bands (repeat Byte.x61 80)).
    vm_compute. split; discriminate.
Defined.

(** X10. In the direct band (up to 60 bytes) the decoder hands back the first
    [n] bytes of the string, with [n] the length when bit 4 of the length is
    clear (0..15 and 32..47 bytes: the round trip holds there) and the length
    less 16 when it is set (16..31 and 48..60 bytes). *)
Theorem Decode_EncodeBytes_direct_band (bb : list byte) :
  Go.len bb <= 60 ->
  exists e : list byte,
    EncodeBytes bb = Returns e /\
    (Z.testbit (Go.len bb) 4 = false -> Decode e = Returns (GoBytes bb, [], None)) /\
    (Z.testbit (Go.len bb) 4 = true ->
     Decode e = Returns (GoBytes (firstn (length bb - 16) bb),
                         skipn (length bb - 16) bb, None)).
Proof.
  intros H. destruct (Decode_EncodeBytes_direct bb H) as (e & He & Hd).
  exists e. split; [exact He|]. split; intros Hb.
  - destruct (Decode_EncodeBytes_bit4_clear bb H Hb) as (e' & He' & Hd').
    rewrite He in He'. inversion He'. subst e'. exact Hd'.
  - rewrite Hd, Hb. cbv zeta. unfold BB_BYTES, Go.len.
    replace (Z.to_nat (Z.of_nat (length bb) - 16)) with (length bb - 16)%nat by lia.
    reflexivity.
Qed.

Lemma Decode_EncodeBytes_direct_band_witness :
  Go.len (repeat Byte.x61 40) <= 60 /\
  exists e : list byte,
    EncodeBytes (repeat Byte.x61 40) = Returns e /\
    (Z.testbit (Go.len (repeat Byte.x61 40)) 4 = false ->
     Decode e = Returns (GoBytes (repeat Byte.x61 40), [], None)) /\
    (Z.testbit (Go.len (repeat Byte.x61 40)) 4 = true ->
     Decode e = Returns (GoBytes (firstn (length (repeat Byte.x61 40) - 16) (repeat Byte.x61 40)),
                         skipn (length (repeat Byte.x61 40) - 16) (repeat Byte.x61 40), None)).
Proof.
  split.
  - vm_compute. discriminate.
  - apply (Decode_EncodeBytes_direct_band (repeat Byte.x61 40)). vm_compute. discriminate.
Defined.

(** X11. Every byte string of the band with four length bytes decodes without an
    error to a string shorter than itself: the two low length bytes and the
    start of the content. *)
Theorem Decode_EncodeBytes_four_length_bytes (bb : list byte) :
  65853 <= Go.len bb <= 65851 + 0xffffffff ->
  exists e v rest : list byte,
    EncodeBytes bb = Returns e /\
    Decode e = Returns (GoBytes v, rest, None) /\
    Go.len v = 318 + (Go.len bb - 65851) / 65536 /\
    Go.len v < Go.len bb /\
    rest <> [].
Proof.
  intros H.
  destruct (Decode_EncodeBytes_ext4 bb H) as (e & v & rest & He & Hd & Hv & Hsum & _).
  exists e, v, rest. split; [exact He|]. split; [exact Hd|]. split; [exact Hv|].
  assert (Hlt : Go.len v < Go.len bb).
  { rewrite Hv. Z.to_euclidean_division_equations. lia. }
  split; [exact Hlt|].
  intros ->. change (Go.len []) with 0 in Hsum. lia.
Qed.

Lemma Decode_EncodeBytes_four_length_bytes_witness :
  65853 <= Go.len (repeat Byte.x00 (Z.to_nat 70000)) <= 65851 + 0xffffffff /\
  exists e v rest : list byte,
    EncodeBytes (repeat Byte.x00 (Z.to_nat 70000)) = Returns e /\
    Decode e = Returns (GoBytes v, rest, None) /\
    Go.len v = 318 + (Go.len (repeat Byte.x00 (Z.to_nat 70000)) - 65851) / 65536 /\
    Go.len v < Go.len (repeat Byte.x00 (Z.to_nat 70000)) /\
    rest <> [].
Proof.
  assert (Hl : Go.len (repeat Byte.x00 (Z.to_nat 70000)) = 70000).
  { unfold Go.len. rewrite repeat_length. apply Z2Nat.id. lia. }
  split.
  - rewrite Hl. lia.
  - apply (Decode_EncodeBytes_four_length_bytes (repeat Byte.x00 (Z.to_nat 70000))).
    rewrite Hl. lia.
Defined.

(** X13. Sentinel bounds: the encoding of a boolean, of an integer and of a byte
    string sorts above the nil-first sentinel and below the nil-last one. *)
Theorem sentinel_bounds (e : list byte) :
  (exists x, plain x /\ x <> GoNil /\ e = encode_plain true x) \/
  (exists bb, EncodeBytes bb = Returns e) ->
  Go.Compare NilFirst e = Lt /\ Go.Compare e NilLast = Lt.
Proof.
  intros He.
  assert (Htag : exists (t : Z) (p : list byte), e = byte.of_Z t :: p /\ 0x0E <= t <= 0xEF).
  { destruct He as [(x & Hx & Hnil & ->)|(bb & Hbb)].
    - destruct x as [|b|i|i|u|us|bb|bb|]; cbn [encode_plain plain] in *;
        try contradiction.
      + exists (if b then 15 else 14), []. destruct b; split; try reflexivity; lia.
      + unfold EncodeInt. rewrite to_int64_id by exact Hx.
        destruct (EncodeInt64_tag i Hx) as (t & p & -> & Ht).
        exists t, p. split; [reflexivity|lia].
      + destruct (EncodeInt64_tag i Hx) as (t & p & -> & Ht).
        exists t, p. split; [reflexivity|lia].
      + destruct (EncodeUint64_tag u Hx) as (t & p & -> & Ht).
        exists t, p. split; [reflexivity|lia].
    - destruct (EncodeBytes_tag bb e Hbb) as (t & p & -> & Ht).
      exists t, p. split; [reflexivity|lia]. }
  destruct Htag as (t & p & -> & Ht). unfold NilFirst, NilLast. split.
  - change (byte.of_Z BB_NIL_FIRST) with (byte.of_Z 0). apply Compare_tag_lt; lia.
  - change (byte.of_Z BB_NIL_LAST) with (byte.of_Z 255). apply Compare_tag_lt; lia.
Qed.

Lemma sentinel_bounds_witness :
  (exists bb, EncodeBytes bb = Returns [Byte.x13; Byte.x64; Byte.x6f; Byte.x67]) /\
  Go.Compare NilFirst [Byte.x13; Byte.x64; Byte.x6f; Byte.x67] = Lt /\
  Go.Compare [Byte.x13; Byte.x64; Byte.x6f; Byte.x67] NilLast = Lt.
Proof.
  assert (H : exists bb, EncodeBytes bb = Returns [Byte.x13; Byte.x64; Byte.x6f; Byte.x67])
    by (exists [Byte.x64; Byte.x6f; Byte.x67]; reflexivity).
  split.
  - exact H.
  - apply (sentinel_bounds [Byte.x13; Byte.x64; Byte.x6f; Byte.x67]). right. exact H.
Defined.

(** * More of the package *)

(** ** Every encoded value delimits itself *)

Ltac split_if H :=
  match type of H with
  | context [if ?c then _ else _] =>
      let E := fresh "E" in destruct c eqn:E; cbv iota in H
  end.

Ltac replay_ifs :=
  repeat match goal with
         | E : ?c = _ |- context [if ?c then _ else _] => rewrite E; cbv iota
         end.

(** The length guard before a [take] passes when the payload is there. *)
Ltac guard_passes Hp rest :=
  rewrite len_app, Hp;
  match goal with
  | |- context [?a + Go.len rest <? ?a] =>
      replace (a + Go.len rest <? a) with false by (pose proof (len_nonneg rest); zbool)
  end.

Ltac short_buffer :=
  match goal with
  | E : (Go.len _ <? _) = false |- _ => cbn in E; discriminate
  end.

Lemma take_prefix (mk : list byte -> value) (s : list byte) (n : Z)
      (v : value) (rest : list byte) :
  take mk s n = Returns (v, rest, None) ->
  exists p : list byte,
    s = p ++ rest /\ Go.len p = n /\ v = mk p.
Proof.
  intros H. apply take_inv in H as [Hn H]. inversion H; subst.
  exists (firstn (Z.to_nat n) s). split; [symmetry; apply firstn_skipn|]. split; [|reflexivity].
  unfold Go.len in *. rewrite length_firstn. lia.
Qed.

(** A successful [Decode] reads a prefix of the buffer and nothing else. *)
Lemma Decode_consumed (b : list byte) (v : value) (next : list byte) :
  Decode b = Returns (v, next, None) ->
  exists consumed : list byte,
    consumed <> [] /\ b = consumed ++ next /\
    forall rest : list byte, Decode (consumed ++ rest) = Returns (v, rest, None).
Proof.
  destruct b as [|x nx]; [discriminate|].
  rewrite Decode_cons. cbn [bind]. cbv zeta. unfold corrupted. intros H.
  assert (Tag : forall c, Returns (c, nx, @None error) = Returns (v, next, None) ->
            (forall rest, Decode (x :: rest) = Returns (c, rest, None)) ->
            exists consumed : list byte,
              consumed <> [] /\ x :: nx = consumed ++ next /\
              forall rest : list byte, Decode (consumed ++ rest) = Returns (v, rest, None)).
  { intros c Hc Hd. inversion Hc; subst. exists [x]. split; [discriminate|]. split; [reflexivity|].
    exact Hd. }
  assert (Take : forall mk hdr s n,
            take mk s n = Returns (v, next, None) -> x :: nx = hdr ++ s -> hdr <> [] ->
            (forall p rest, Go.len p = n ->
               Decode (hdr ++ p ++ rest) = take mk (p ++ rest) n) ->
            exists consumed : list byte,
              consumed <> [] /\ x :: nx = consumed ++ next /\
              forall rest : list byte, Decode (consumed ++ rest) = Returns (v, rest, None)).
  { intros mk hdr s n Ht Hs Hh Hd. apply take_prefix in Ht as (p & -> & Hp & ->).
    exists (hdr ++ p). split; [destruct hdr; [contradiction|discriminate]|].
    split; [rewrite Hs, app_assoc; reflexivity|].
    intros rest. rewrite <- app_assoc, Hd by exact Hp. apply take_app. symmetry. exact Hp. }
  repeat (split_if H; try discriminate).
  1-3, 7-8, 11:
    (eapply Tag; [exact H|]; intros rest; rewrite Decode_cons; cbn [bind]; cbv zeta;
     replay_ifs; reflexivity).
  - eapply (Take _ [x] nx _ H); [reflexivity | discriminate |].
    intros p rest Hp. cbn [app]. rewrite Decode_cons. cbn [bind]. cbv zeta. replay_ifs.
    guard_passes Hp rest. reflexivity.
  - destruct nx as [|k nx']; [short_buffer|].
    rewrite index_cons_0, slice_from_cons_1 in H. cbn [bind] in H.
    split_if H; [discriminate|].
    eapply (Take _ [x; k] nx' _ H); [reflexivity | discriminate |].
    intros p rest Hp. cbn [app]. rewrite Decode_cons. cbn [bind]. cbv zeta. replay_ifs.
    rewrite len_cons.
    replace (Go.len (p ++ rest) + 1 <? 1) with false
      by (pose proof (len_nonneg (p ++ rest)); zbool).
    rewrite index_cons_0, slice_from_cons_1. cbn [bind].
    guard_passes Hp rest. reflexivity.
  - destruct nx as [|k1 [|k2 nx']]; try short_buffer.
    rewrite index_cons_0, index_cons_1, slice_from_cons_2 in H. cbn [bind] in H.
    split_if H; [discriminate|].
    eapply (Take _ [x; k1; k2] nx' _ H); [reflexivity | discriminate |].
    intros p rest Hp. cbn [app]. rewrite Decode_cons. cbn [bind]. cbv zeta. replay_ifs.
    rewrite !len_cons.
    replace (Go.len (p ++ rest) + 1 + 1 <? 2) with false
      by (pose proof (len_nonneg (p ++ rest)); zbool).
    rewrite index_cons_0, index_cons_1, slice_from_cons_2. cbn [bind].
    guard_passes Hp rest. reflexivity.
  - eapply (Take _ [x] nx _ H); [reflexivity | discriminate |].
    intros p rest Hp. cbn [app]. rewrite Decode_cons. cbn [bind]. cbv zeta. replay_ifs.
    guard_passes Hp rest. reflexivity.
  - eapply (Take _ [x] nx _ H); [reflexivity | discriminate |].
    intros p rest Hp. cbn [app]. rewrite Decode_cons. cbn [bind]. cbv zeta. replay_ifs.
    guard_passes Hp rest. reflexivity.
  - match goal with
    | E : (_ || _ || _) = false |- _ =>
        apply orb_false_iff in E as [E _]; apply orb_false_iff in E as [Ea Eb]
    end.
    eapply (Take _ [x] nx _ H); [reflexivity | discriminate |].
    intros p rest Hp. cbn [app]. rewrite Decode_cons. cbn [bind]. cbv zeta. replay_ifs.
    rewrite Ea, Eb. cbn [orb]. guard_passes Hp rest. reflexivity.
Qed.

(** ** [EncodeNils]: one value after the other *)

Lemma fold_left_EncodeUint64 (us : list Z) (b : list byte) :
  fold_left (fun b u => b ++ EncodeUint64 u) us b = b ++ flat_map EncodeUint64 us.
Proof.
  revert b. induction us as [|u us IH]; intros b; cbn [fold_left flat_map].
  - rewrite app_nil_r. reflexivity.
  - rewrite IH, <- app_assoc. reflexivity.
Qed.

(** What the loop body appends does not depend on what was appended before. *)
Lemma EncodeNils_step_acc (nilFirst : bool) (b : list byte) (v : value) :
  EncodeNils_step nilFirst b v =
  match EncodeNils_step nilFirst [] v with
  | Returns (inl e) => Returns (inl (b ++ e))
  | r => r
  end.
Proof.
  destruct v; cbn [EncodeNils_step app]; try reflexivity.
  - rewrite (fold_left_EncodeUint64 us b), (fold_left_EncodeUint64 us []). reflexivity.
  - destruct (EncodeBytes bb); reflexivity.
  - destruct (EncodeBytes s); reflexivity.
Qed.

Lemma EncodeNils_loop_acc (nilFirst : bool) (xs : list value) (b : list byte) :
  EncodeNils_loop nilFirst xs b =
  match EncodeNils_loop nilFirst xs [] with
  | Returns (e, None) => Returns (b ++ e, None)
  | r => r
  end.
Proof.
  revert b. induction xs as [|x xs IH]; intros b; cbn [EncodeNils_loop].
  - rewrite app_nil_r. reflexivity.
  - rewrite (EncodeNils_step_acc nilFirst b x).
    destruct (EncodeNils_step nilFirst [] x) as [[e|err]|msg]; cbn [bind app]; try reflexivity.
    rewrite (IH (b ++ e)), (IH e).
    destruct (EncodeNils_loop nilFirst xs []) as [[e' [err|]]|msg]; try reflexivity.
    rewrite app_assoc. reflexivity.
Qed.

Lemma EncodeNils_loop_app (nilFirst : bool) (xs ys : list value) (b : list byte) :
  EncodeNils_loop nilFirst (xs ++ ys) b =
  match EncodeNils_loop nilFirst xs b with
  | Returns (e, None) => EncodeNils_loop nilFirst ys e
  | r => r
  end.
Proof.
  revert b. induction xs as [|x xs IH]; intros b; cbn [EncodeNils_loop app].
  - reflexivity.
  - destruct (EncodeNils_step nilFirst b x) as [[e|err]|msg]; cbn [bind]; try reflexivity.
    apply IH.
Qed.

(** X14. Encoding a tuple in two parts: [EncodeNils] on [xs ++ ys] returns
    the buffer of [xs] followed by the buffer of [ys]; when [xs] fails (an
    unsupported value, or the panic of an oversize byte string) the result is
    that failure and [ys] is not looked at, and otherwise a failure of [ys]
    is the result. *)
Theorem EncodeNils_app (nilFirst : bool) (xs ys : list value) :
  EncodeNils nilFirst (xs ++ ys) =
  match EncodeNils nilFirst xs with
  | Returns (ex, None) =>
      match EncodeNils nilFirst ys with
      | Returns (ey, None) => Returns (ex ++ ey, None)
      | r => r
      end
  | r => r
  end.
Proof.
  unfold EncodeNils. rewrite EncodeNils_loop_app.
  destruct (EncodeNils_loop nilFirst xs []) as [[ex [err|]]|msg]; try reflexivity.
  apply EncodeNils_loop_acc.
Qed.

(** X15. An unsupported value makes [EncodeNils] fail with [NoEncoding]:
    when the values before it are encoded, the result is a nil buffer and
    [NoEncoding], what was encoded so far is dropped, and the values after it
    are not looked at (a byte string too long for [EncodeBytes] among them
    does not panic). *)
Theorem EncodeNils_unsupported (nilFirst : bool) (xs ys : list value) (ex : list byte) :
  EncodeNils nilFirst xs = Returns (ex, None) ->
  EncodeNils nilFirst (xs ++ GoOther :: ys) = Returns ([], Some NoEncoding).
Proof.
  unfold EncodeNils. intros H. rewrite EncodeNils_loop_app, H. reflexivity.
Qed.

Lemma EncodeNils_unsupported_witness :
  EncodeNils true [GoInt 3; GoString [Byte.x64]] = Returns ([Byte.xe3; Byte.x11; Byte.x64], None) /\
  EncodeNils true ([GoInt 3; GoString [Byte.x64]] ++ GoOther :: [GoBytes oversize])
  = Returns ([], Some NoEncoding).
Proof.
  assert (H : EncodeNils true [GoInt 3; GoString [Byte.x64]]
              = Returns ([Byte.xe3; Byte.x11; Byte.x64], None)) by reflexivity.
  split.
  - exact H.
  - exact (EncodeNils_unsupported true _ [GoBytes oversize] _ H).
Defined.

(** X29. A byte string too long for [EncodeBytes] makes [EncodeNils]
    panic when the values before it are encoded: the panic
    "slice too long" of [EncodeBytes] is not recovered, whether the value is
    a byte string or a string, and whatever the values after it. (After an
    unsupported value it is not reached: see [EncodeNils_unsupported].) *)
Theorem EncodeNils_oversize (nilFirst : bool) (xs ys : list value) (ex bb : list byte) :
  EncodeNils nilFirst xs = Returns (ex, None) ->
  65851 + 0xffffffff < Go.len bb ->
  EncodeNils nilFirst (xs ++ GoBytes bb :: ys) = Panics "slice too long"%string /\
  EncodeNils nilFirst (xs ++ GoString bb :: ys) = Panics "slice too long"%string.
Proof.
  unfold EncodeNils. intros H Hl. rewrite !EncodeNils_loop_app, H.
  cbn [EncodeNils_loop EncodeNils_step].
  rewrite EncodeBytes_oversize by exact Hl. split; reflexivity.
Qed.

Lemma EncodeNils_oversize_witness :
  (EncodeNils true [GoInt 3] = Returns ([Byte.xe3], None) /\
   65851 + 0xffffffff < Go.len oversize) /\
  EncodeNils true ([GoInt 3] ++ GoBytes oversize :: [GoOther]) = Panics "slice too long"%string /\
  EncodeNils true ([GoInt 3] ++ GoString oversize :: [GoOther]) = Panics "slice too long"%string.
Proof.
  assert (H : EncodeNils true [GoInt 3] = Returns ([Byte.xe3], None)) by reflexivity.
  assert (Hl : 65851 + 0xffffffff < Go.len oversize) by (rewrite oversize_len; lia).
  split.
  - split; [exact H | exact Hl].
  - exact (EncodeNils_oversize true [GoInt 3] [GoOther] [Byte.xe3] oversize H Hl).
Defined.

(** X16. A [[]uint64] in a tuple is encoded as its elements one after the
    other, with nothing to mark the slice: the tuple encodes as the tuple
    that holds the elements themselves in its place. *)
Theorem EncodeNils_uint64_slice (nilFirst : bool) (xs ys : list value) (us : list Z) :
  EncodeNils nilFirst (xs ++ GoUint64s us :: ys)
  = EncodeNils nilFirst (xs ++ map GoUint64 us ++ ys).
Proof.
  unfold EncodeNils. rewrite !EncodeNils_loop_app.
  destruct (EncodeNils_loop nilFirst xs []) as [[ex [err|]]|msg]; try reflexivity.
  cbn [EncodeNils_loop EncodeNils_step bind]. rewrite EncodeNils_loop_app.
  generalize ex as b. induction us as [|u us IH]; intros b; cbn [fold_left map EncodeNils_loop].
  - reflexivity.
  - cbn [EncodeNils_step bind]. apply IH.
Qed.

(** ** [DecodeUintArray] *)

(** One turn of the loop of [DecodeUintArray]. *)
Lemma DecodeUintArray_loop_eq (b : list byte) (res : list Z) :
  DecodeUintArray_loop b res =
  match Decode b with
  | Panics msg => Panics msg
  | Returns (_, _, Some EmptyBufferError) => Returns (res, None)
  | Returns (_, _, Some err) => Returns ([], Some err)
  | Returns (v, next, None) =>
      match assert_uint64 v with
      | Returns u => DecodeUintArray_loop next (res ++ [u])
      | Panics msg => Panics msg
      end
  end.
Proof.
  funelim (DecodeUintArray_loop b res);
    match goal with e : Decode _ = _ |- _ => rewrite e end;
    try match goal with e : assert_uint64 _ = _ |- _ => rewrite e end;
    reflexivity.
Qed.

Lemma DecodeUintArray_loop_spec (b : list byte) (res : list Z) :
  (exists (us : list Z) (rest : list byte) (e : error),
     decodes b (map GoUint64 us) rest /\
     Decode rest = Returns (GoNil, [], Some e) /\
     DecodeUintArray_loop b res =
     Returns (match e with
              | EmptyBufferError => (res ++ us, None)
              | _ => ([], Some e)
              end)) \/
  (exists (us : list Z) (rest : list byte) (v : value) (next : list byte),
     decodes b (map GoUint64 us) rest /\
     Decode rest = Returns (v, next, None) /\
     (forall u, v <> GoUint64 u) /\
     DecodeUintArray_loop b res =
     Panics ("interface conversion: interface {} is " ++ type_name v ++ ", not uint64")%string).
Proof.
  remember (length b) as n eqn:Hn. revert b res Hn.
  induction n as [n IH] using lt_wf_ind. intros b res Hn.
  rewrite DecodeUintArray_loop_eq.
  pose proof (Decode_total b) as Ht.
  inversion Ht as [v next Hb Hd | Hb Hd | Hb Hd]; symmetry in Hd.
  - assert (Hlt : (length next < n)%nat) by (subst n; eapply Decode_consumes; eassumption).
    destruct v as [|t|i|i|u|us0|bb|str|].
    5: {
      cbn [assert_uint64].
      destruct (IH (length next) Hlt next (res ++ [u]) eq_refl)
        as [(us & rest & e & Hvs & He & Hall)|(us & rest & v' & next' & Hvs & Hv' & Hno & Hall)].
      - left. exists (u :: us), rest, e. split; [|split].
        + cbn [map]. eapply decodes_step; eassumption.
        + exact He.
        + rewrite Hall, <- app_assoc. reflexivity.
      - right. exists (u :: us), rest, v', next'. split; [|split; [|split]].
        + cbn [map]. eapply decodes_step; eassumption.
        + exact Hv'.
        + exact Hno.
        + exact Hall. }
    all: right; exists [], b; eexists; exists next;
      (split; [apply decodes_done|]); (split; [exact Hd|]);
      (split; [intros u; discriminate | reflexivity]).
  - left. exists [], b, EmptyBufferError. split; [apply decodes_done|]. split; [assumption|].
    cbn [map]. rewrite app_nil_r. reflexivity.
  - left. exists [], b, CorruptedBufferError. split; [apply decodes_done|]. split; [assumption|].
    reflexivity.
Qed.

(** X17. What [DecodeUintArray] returns is decided by the first single step
    that does not yield a [uint64]: when that step reports
    [EmptyBufferError], the result is the integers decoded so far and no
    error; when it reports another error, the result is nil and that error;
    and when it decodes a value of another type (nil, a boolean, a byte
    string, a signed integer), [DecodeUintArray] panics in its type
    assertion. *)
Theorem DecodeUintArray_first_failure (b : list byte) :
  (exists (us : list Z) (rest : list byte) (e : error),
     decodes b (map GoUint64 us) rest /\
     Decode rest = Returns (GoNil, [], Some e) /\
     DecodeUintArray b =
     Returns (match e with
              | EmptyBufferError => (us, None)
              | _ => ([], Some e)
              end)) \/
  (exists (us : list Z) (rest : list byte) (v : value) (next : list byte),
     decodes b (map GoUint64 us) rest /\
     Decode rest = Returns (v, next, None) /\
     (forall u, v <> GoUint64 u) /\
     DecodeUintArray b =
     Panics ("interface conversion: interface {} is " ++ type_name v ++ ", not uint64")%string).
Proof. exact (DecodeUintArray_loop_spec b []). Qed.

Lemma DecodeUintArray_loop_uint64s (us : list Z) (res : list Z) :
  Forall Go.is_uint64 us ->
  DecodeUintArray_loop (flat_map EncodeUint64 us) res = Returns (res ++ us, None).
Proof.
  intros H. revert res. induction H as [|u us Hu Hus IH]; intros res; cbn [flat_map].
  - rewrite DecodeUintArray_loop_eq, Decode_nil, app_nil_r. reflexivity.
  - rewrite DecodeUintArray_loop_eq, Decode_EncodeUint64_app by exact Hu.
    cbn [assert_uint64]. rewrite IH, <- app_assoc. reflexivity.
Qed.

(** X18. Round trip of a slice of unsigned integers: [DecodeUintArray]
    applied to what [Encode] returns for a [[]uint64] gives the slice back;
    so does it for the tuple of the same integers as separate [uint64]
    values. *)
Theorem DecodeUintArray_Encode (us : list Z) :
  Forall Go.is_uint64 us ->
  exists e : list byte,
    Encode [GoUint64s us] = Returns (e, None) /\
    Encode (map GoUint64 us) = Returns (e, None) /\
    DecodeUintArray e = Returns (us, None).
Proof.
  intros H. exists (flat_map EncodeUint64 us). split; [|split].
  - unfold Encode, EncodeNils. cbn [EncodeNils_loop EncodeNils_step bind].
    rewrite fold_left_EncodeUint64. reflexivity.
  - unfold Encode, EncodeNils. rewrite EncodeNils_loop_plain.
    + cbn [app]. rewrite flat_map_concat_map, map_map, <- flat_map_concat_map. reflexivity.
    + apply Forall_map. exact H.
  - unfold DecodeUintArray. rewrite DecodeUintArray_loop_uint64s by exact H. reflexivity.
Qed.

Lemma DecodeUintArray_Encode_witness :
  Forall Go.is_uint64 [0; 16; 17; 2 ^ 64 - 1] /\
  exists e : list byte,
    Encode [GoUint64s [0; 16; 17; 2 ^ 64 - 1]] = Returns (e, None) /\
    Encode (map GoUint64 [0; 16; 17; 2 ^ 64 - 1]) = Returns (e, None) /\
    DecodeUintArray e = Returns ([0; 16; 17; 2 ^ 64 - 1], None).
Proof.
  assert (H : Forall Go.is_uint64 [0; 16; 17; 2 ^ 64 - 1])
    by (repeat constructor; unfold Go.is_uint64; lia).
  split.
  - exact H.
  - exact (DecodeUintArray_Encode _ H).
Defined.

(** ** Buffers side by side *)

(** X19. Every encoded value delimits itself: a successful [Decode] reads a
    prefix of the buffer that is not empty and returns the rest as the
    remainder, and the value it returns depends on that prefix alone:
    followed by any other bytes, the prefix decodes to the same value and
    leaves those bytes. *)
Theorem Decode_self_delimiting (b : list byte) (v : value) (next : list byte) :
  Decode b = Returns (v, next, None) ->
  exists consumed : list byte,
    consumed <> [] /\ b = consumed ++ next /\
    forall rest : list byte, Decode (consumed ++ rest) = Returns (v, rest, None).
Proof. apply Decode_consumed. Qed.

Lemma Decode_self_delimiting_witness :
  Decode [Byte.xe9; Byte.x03; Byte.xe8; Byte.x0f] = Returns (GoInt64 1000, [Byte.x0f], None) /\
  exists consumed : list byte,
    consumed <> [] /\ [Byte.xe9; Byte.x03; Byte.xe8; Byte.x0f] = consumed ++ [Byte.x0f] /\
    forall rest : list byte, Decode (consumed ++ rest) = Returns (GoInt64 1000, rest, None).
Proof.
  assert (H : Decode [Byte.xe9; Byte.x03; Byte.xe8; Byte.x0f]
              = Returns (GoInt64 1000, [Byte.x0f], None)) by reflexivity.
  split.
  - exact H.
  - exact (Decode_self_delimiting _ _ _ H).
Defined.

Lemma Decode_app (b extra : list byte) (v : value) (next : list byte) :
  Decode b = Returns (v, next, None) ->
  Decode (b ++ extra) = Returns (v, next ++ extra, None).
Proof.
  intros H. destruct (Decode_consumed b v next H) as (c & _ & -> & Hc).
  rewrite <- app_assoc. apply Hc.
Qed.

Lemma DecodeAll_loop_acc (strings : bool) (b : list byte) (res : list value) :
  DecodeAll_loop strings b res =
  match DecodeAll_loop strings b [] with
  | Returns (vs, None) => Returns (res ++ vs, None)
  | r => r
  end.
Proof.
  destruct (DecodeAll_loop_spec strings b res) as (vs & rest & e & Hvs & He & ->).
  destruct (DecodeAll_loop_spec strings b []) as (vs' & rest' & e' & Hvs' & He' & ->).
  destruct (decodes_deterministic b vs vs' rest rest' e e' Hvs He Hvs' He') as (-> & -> & ->).
  destruct e'; reflexivity.
Qed.

Lemma DecodeAll_loop_app (strings : bool) (b b' : list byte) (res vs : list value) :
  DecodeAll_loop strings b res = Returns (vs, None) ->
  DecodeAll_loop strings (b ++ b') res = DecodeAll_loop strings b' vs.
Proof.
  remember (length b) as n eqn:Hn. revert b res Hn.
  induction n as [n IH] using lt_wf_ind. intros b res Hn H.
  rewrite DecodeAll_loop_eq in H.
  pose proof (Decode_total b) as Ht.
  inversion Ht as [v next Hb Hd | Hb Hd | Hb Hd]; symmetry in Hd; rewrite Hd in H.
  - rewrite (DecodeAll_loop_eq strings (b ++ b')), (Decode_app b b' v next Hd).
    apply (IH (length next)); [|reflexivity|exact H].
    subst n. eapply Decode_consumes. exact Hd.
  - subst b. inversion H. reflexivity.
  - discriminate.
Qed.

(** X20. Decoding two buffers side by side: when [DecodeAll] decodes [b]
    to the values [vs], [DecodeAll] on [b] followed by [b'] returns [vs]
    followed by the values of [b'], and the error of [b'] when it has one. *)
Theorem DecodeAll_app (strings : bool) (b b' : list byte) (vs : list value) :
  DecodeAll strings b = Returns (vs, None) ->
  DecodeAll strings (b ++ b') =
  match DecodeAll strings b' with
  | Returns (vs', None) => Returns (vs ++ vs', None)
  | r => r
  end.
Proof.
  unfold DecodeAll. intros H.
  rewrite (DecodeAll_loop_app strings b b' [] vs H). apply DecodeAll_loop_acc.
Qed.

Lemma DecodeAll_app_witness :
  DecodeAll false [Byte.xe3; Byte.x0f] = Returns ([GoInt64 3; GoBool true], None) /\
  DecodeAll false ([Byte.xe3; Byte.x0f] ++ [Byte.x91; Byte.xff]) =
  match DecodeAll false [Byte.x91; Byte.xff] with
  | Returns (vs', None) => Returns ([GoInt64 3; GoBool true] ++ vs', None)
  | r => r
  end.
Proof.
  assert (H : DecodeAll false [Byte.xe3; Byte.x0f] = Returns ([GoInt64 3; GoBool true], None))
    by reflexivity.
  split.
  - exact H.
  - exact (DecodeAll_app false _ [Byte.x91; Byte.xff] _ H).
Defined.

(** ** Byte strings: where the order is preserved, and sizes *)

(** The header [EncodeBytes] puts before a byte string depends on the length
    of the string alone. *)
Lemma EncodeBytes_header (bb e : list byte) :
  EncodeBytes bb = Returns e ->
  exists h : list byte,
    e = h ++ bb /\
    Go.len h = (if Go.len bb <=? 60 then 1 else if Go.len bb <=? 316 then 2
                else if Go.len bb <=? 65852 then 3 else 5) /\
    forall bb' : list byte, Go.len bb' = Go.len bb -> EncodeBytes bb' = Returns (h ++ bb').
Proof.
  intros H. pose proof (len_nonneg bb) as H0.
  destruct (Z_le_dec (Go.len bb) 60) as [H1|H1];
    [|destruct (Z_le_dec (Go.len bb) 316) as [H2|H2];
      [|destruct (Z_le_dec (Go.len bb) 65852) as [H3|H3];
        [|destruct (Z_le_dec (Go.len bb) (65851 + 0xffffffff)) as [H4|H4]]]].
  - rewrite EncodeBytes_direct in H by lia. inversion H.
    exists [byte.of_Z (Z.lor BB_BYTES (Go.len bb))]. split; [reflexivity|]. split.
    + replace (Go.len bb <=? 60) with true by zbool. reflexivity.
    + intros bb' Hl. rewrite EncodeBytes_direct by lia. rewrite Hl. reflexivity.
  - rewrite EncodeBytes_ext1 in H by lia. inversion H.
    exists [byte.of_Z BB_BYTES_LEN_1; byte.of_Z (Go.len bb - 61)]. split; [reflexivity|]. split.
    + replace (Go.len bb <=? 60) with false by zbool.
      replace (Go.len bb <=? 316) with true by zbool. reflexivity.
    + intros bb' Hl. rewrite EncodeBytes_ext1 by lia. rewrite Hl. reflexivity.
  - rewrite EncodeBytes_ext2 in H by lia. inversion H.
    exists [byte.of_Z BB_BYTES_LEN_2; byte.of_Z (Z.shiftr (Go.len bb - 317) 8);
            byte.of_Z (Go.len bb - 317)].
    split; [reflexivity|]. split.
    + replace (Go.len bb <=? 60) with false by zbool.
      replace (Go.len bb <=? 316) with false by zbool.
      replace (Go.len bb <=? 65852) with true by zbool. reflexivity.
    + intros bb' Hl. rewrite EncodeBytes_ext2 by lia. rewrite Hl. reflexivity.
  - rewrite EncodeBytes_ext4 in H by lia. inversion H.
    exists [byte.of_Z BB_BYTES_LEN_4; byte.of_Z (Z.shiftr (Go.len bb - 65851) 24);
            byte.of_Z (Z.shiftr (Go.len bb - 65851) 16);
            byte.of_Z (Z.shiftr (Go.len bb - 65851) 8); byte.of_Z (Go.len bb - 65851)].
    split; [reflexivity|]. split.
    + replace (Go.len bb <=? 60) with false by zbool.
      replace (Go.len bb <=? 316) with false by zbool.
      replace (Go.len bb <=? 65852) with false by zbool. reflexivity.
    + intros bb' Hl. rewrite EncodeBytes_ext4 by lia. rewrite Hl. reflexivity.
  - rewrite EncodeBytes_oversize in H by lia. discriminate.
Qed.

Lemma EncodeBytes_same_length (a b ea eb ra rb : list byte) :
  length a = length b ->
  EncodeBytes a = Returns ea -> EncodeBytes b = Returns eb ->
  Go.Compare (ea ++ ra) (eb ++ rb) =
  match Go.Compare a b with Eq => Go.Compare ra rb | c => c end.
Proof.
  intros Hl Ha Hb. destruct (EncodeBytes_header a ea Ha) as (h & -> & _ & Hh).
  rewrite (Hh b) in Hb by (unfold Go.len; rewrite Hl; reflexivity).
  inversion Hb. rewrite <- !app_assoc, Compare_app_prefix.
  apply Compare_app_same_length. exact Hl.
Qed.

(** [e] is what the encoder returned. *)
Ltac returned H :=
  match type of H with
  | Returns ?x = Returns ?e =>
      let E := fresh in assert (E : e = x) by congruence; subst e; clear H
  end.

Lemma EncodeBytes_longer (a b ea eb ra rb : list byte) :
  Go.len a < Go.len b -> 61 <= Go.len b <= 65852 ->
  EncodeBytes a = Returns ea -> EncodeBytes b = Returns eb ->
  Go.Compare (ea ++ ra) (eb ++ rb) = Lt.
Proof.
  intros Hlt Hb Ea Eb. pose proof (len_nonneg a) as H0.
  assert (Hdirect : Go.len a <= 60 -> 0x10 <= Z.lor BB_BYTES (Go.len a) < 0x4D).
  { intros H. rewrite lor_BB_BYTES by lia. unfold BB_BYTES.
    destruct (Z.testbit (Go.len a) 4) eqn:Hbit; [|lia].
    destruct (Z.lt_ge_cases (Go.len a) 16) as [Hs|Hs]; [|lia].
    rewrite <- (Z.mod_small (Go.len a) (2 ^ 4)) in Hbit by (change (2 ^ 4) with 16; lia).
    rewrite Z.mod_pow2_bits_high in Hbit by lia. discriminate. }
  destruct (Z_le_dec (Go.len b) 316) as [B1|B2].
  - rewrite EncodeBytes_ext1 in Eb by lia. returned Eb.
    destruct (Z_le_dec (Go.len a) 60) as [A0|A1].
    + rewrite EncodeBytes_direct in Ea by lia. returned Ea.
      cbn [app]. apply Compare_tag_lt; unfold BB_BYTES_LEN_1; specialize (Hdirect A0); lia.
    + rewrite EncodeBytes_ext1 in Ea by lia. returned Ea.
      cbn [app Go.Compare]. rewrite Z.compare_refl, !unsigned_of_Z_small by lia.
      replace (Go.len a - 61 ?= Go.len b - 61) with Lt
        by (symmetry; apply Z.compare_lt_iff; lia).
      reflexivity.
  - rewrite EncodeBytes_ext2 in Eb by lia. returned Eb.
    destruct (Z_le_dec (Go.len a) 60) as [A0|A1];
      [|destruct (Z_le_dec (Go.len a) 316) as [A1'|A2]].
    + rewrite EncodeBytes_direct in Ea by lia. returned Ea.
      cbn [app]. apply Compare_tag_lt; unfold BB_BYTES_LEN_2; specialize (Hdirect A0); lia.
    + rewrite EncodeBytes_ext1 in Ea by lia. returned Ea.
      cbn [app]. apply Compare_tag_lt; unfold BB_BYTES_LEN_1, BB_BYTES_LEN_2; lia.
    + rewrite EncodeBytes_ext2 in Ea by lia. returned Ea.
      change (byte.of_Z BB_BYTES_LEN_2 :: byte.of_Z (Z.shiftr (Go.len a - 317) 8)
                :: byte.of_Z (Go.len a - 317) :: a)
        with ((byte.of_Z BB_BYTES_LEN_2 :: big_endian 2 (Go.len a - 317)) ++ a).
      change (byte.of_Z BB_BYTES_LEN_2 :: byte.of_Z (Z.shiftr (Go.len b - 317) 8)
                :: byte.of_Z (Go.len b - 317) :: b)
        with ((byte.of_Z BB_BYTES_LEN_2 :: big_endian 2 (Go.len b - 317)) ++ b).
      rewrite <- !app_assoc. apply Compare_same_tag.
      change (pow256 2) with 65536. rewrite !Z.mod_small by lia. lia.
Qed.

(** X21. Where [EncodeBytes] preserves the order by length and then
    content: for two byte strings of one length the encodings compare as the
    contents do, and a string of 61 to 65852 bytes is encoded above every
    shorter string; in both cases whatever follows the two encodings in a
    buffer. (Among strings of different lengths up to 60 bytes the order is
    not preserved.) *)
Theorem EncodeBytes_order_preserved (a b ea eb ra rb : list byte) :
  Go.len a = Go.len b \/ (Go.len a < Go.len b /\ 61 <= Go.len b <= 65852) ->
  EncodeBytes a = Returns ea -> EncodeBytes b = Returns eb ->
  Go.Compare (ea ++ ra) (eb ++ rb) =
  match bytes_order a b with Eq => Go.Compare ra rb | c => c end.
Proof.
  intros [Heq|[Hlt Hb]] Ea Eb; unfold bytes_order.
  - assert (Hl : length a = length b) by (unfold Go.len in Heq; lia).
    rewrite Hl, Nat.compare_refl. apply EncodeBytes_same_length; assumption.
  - replace (length a ?= length b)%nat with Lt
      by (symmetry; apply Nat.compare_lt_iff; unfold Go.len in Hlt; lia).
    eapply EncodeBytes_longer; eassumption.
Qed.

Lemma EncodeBytes_order_preserved_witness :
  (Go.len [Byte.x63; Byte.x61; Byte.x74] = Go.len [Byte.x64; Byte.x6f; Byte.x67] /\
   EncodeBytes [Byte.x63; Byte.x61; Byte.x74] = Returns [Byte.x13; Byte.x63; Byte.x61; Byte.x74] /\
   EncodeBytes [Byte.x64; Byte.x6f; Byte.x67] = Returns [Byte.x13; Byte.x64; Byte.x6f; Byte.x67]) /\
  Go.Compare ([Byte.x13; Byte.x63; Byte.x61; Byte.x74] ++ [Byte.x0e])
             ([Byte.x13; Byte.x64; Byte.x6f; Byte.x67] ++ [Byte.x0e]) =
  match bytes_order [Byte.x63; Byte.x61; Byte.x74] [Byte.x64; Byte.x6f; Byte.x67] with
  | Eq => Go.Compare [Byte.x0e] [Byte.x0e]
  | c => c
  end.
Proof.
  split.
  - repeat split; reflexivity.
  - apply (EncodeBytes_order_preserved [Byte.x63; Byte.x61; Byte.x74]
                                       [Byte.x64; Byte.x6f; Byte.x67]).
    + left. reflexivity.
    + reflexivity.
    + reflexivity.
Defined.

(** X22. The size of an encoded byte string: the string itself after a
    header of 1 byte for up to 60 bytes, 2 bytes for up to 316, 3 bytes for
    up to 65852 and 5 bytes above; the string is the tail of the encoding. *)
Theorem EncodeBytes_size (bb e : list byte) :
  EncodeBytes bb = Returns e ->
  exists h : list byte,
    e = h ++ bb /\
    Go.len e = Go.len bb + (if Go.len bb <=? 60 then 1 else if Go.len bb <=? 316 then 2
                            else if Go.len bb <=? 65852 then 3 else 5).
Proof.
  intros H. destruct (EncodeBytes_header bb e H) as (h & -> & Hh & _).
  exists h. split; [reflexivity|]. rewrite len_app, Hh. lia.
Qed.

Lemma EncodeBytes_size_witness :
  EncodeBytes [Byte.x64; Byte.x6f; Byte.x67] = Returns [Byte.x13; Byte.x64; Byte.x6f; Byte.x67] /\
  exists h : list byte,
    [Byte.x13; Byte.x64; Byte.x6f; Byte.x67] = h ++ [Byte.x64; Byte.x6f; Byte.x67] /\
    Go.len [Byte.x13; Byte.x64; Byte.x6f; Byte.x67]
    = Go.len [Byte.x64; Byte.x6f; Byte.x67]
      + (if Go.len [Byte.x64; Byte.x6f; Byte.x67] <=? 60 then 1
         else if Go.len [Byte.x64; Byte.x6f; Byte.x67] <=? 316 then 2
              else if Go.len [Byte.x64; Byte.x6f; Byte.x67] <=? 65852 then 3 else 5).
Proof.
  split.
  - reflexivity.
  - apply (EncodeBytes_size [Byte.x64; Byte.x6f; Byte.x67]). reflexivity.
Defined.

(** ** Sizes and tags of the integers *)

Lemma EncodeInt64_tag_sign (i : Z) :
  Go.is_int64 i ->
  exists (t : Z) (p : list byte),
    EncodeInt64 i = byte.of_Z t :: p /\
    (length p <= 8)%nat /\ (p = [] <-> -8 <= i <= 7) /\
    (i < 0 -> 0x60 <= t <= 0x6F) /\ (0 <= i -> 0xE0 <= t <= 0xEF).
Proof.
  unfold Go.is_int64. intros Hi.
  destruct (Z_lt_dec i (-8)) as [Hneg|Hn8]; [|destruct (Z_gt_dec i 7) as [Hpos|Hn7]].
  - unfold EncodeInt64. change SMALL_NEGATIVE_INT with (-8).
    replace (i <? -8) with true by lia.
    destruct (compactInt64_negative_spec i ltac:(lia)) as (j & Hj & -> & _).
    do 2 eexists. split; [reflexivity|]. rewrite big_endian_length.
    split; [lia|]. split; [|lia]. split; [discriminate|lia].
  - unfold EncodeInt64. change SMALL_NEGATIVE_INT with (-8). change SMALL_POSITIVE_INT with 7.
    replace (i <? -8) with false by lia. replace (i >? 7) with true by lia.
    rewrite (to_uint64_id i) by (unfold Go.is_uint64; lia).
    destruct (compactInt64_positive_spec i ltac:(lia)) as (j & Hj & -> & _).
    do 2 eexists. split; [reflexivity|]. rewrite big_endian_length.
    split; [lia|]. split; [|lia]. split; [discriminate|lia].
  - rewrite EncodeInt64_small by lia.
    do 2 eexists. split; [reflexivity|]. cbn [length].
    split; [lia|]. split; [split; [intros _; lia | reflexivity]|].
    destruct (Z.ltb_spec i 0); lia.
Qed.

Lemma EncodeUint64_tag_size (u : Z) :
  Go.is_uint64 u ->
  exists (t : Z) (p : list byte),
    EncodeUint64 u = byte.of_Z t :: p /\
    (length p <= 8)%nat /\ (p = [] <-> u <= 16) /\ 0x80 <= t <= 0x98.
Proof.
  unfold Go.is_uint64. intros Hu. destruct (Z_le_dec u 16) as [Hs|Hb].
  - rewrite EncodeUint64_small by lia. do 2 eexists. split; [reflexivity|]. cbn [length].
    split; [lia|]. split; [split; [intros _; lia | reflexivity]|lia].
  - unfold EncodeUint64. change SMALL_UINT with 16. replace (u <=? 16) with false by lia.
    destruct (compactUint64_spec u Hu) as (j & Hj & -> & _).
    do 2 eexists. split; [reflexivity|]. rewrite big_endian_length.
    split; [lia|]. split; [|lia]. split; [discriminate|lia].
Qed.

(** X23. The size of an encoded integer: one byte for the small literals
    (-8..7 signed, 0..16 unsigned) and for them only, and 2 to 9 bytes for
    every other 64-bit integer. *)
Theorem encoded_integer_size (i u : Z) :
  Go.is_int64 i -> Go.is_uint64 u ->
  ((1 <= length (EncodeInt64 i) <= 9)%nat /\
   (length (EncodeInt64 i) = 1%nat <-> -8 <= i <= 7)) /\
  ((1 <= length (EncodeUint64 u) <= 9)%nat /\
   (length (EncodeUint64 u) = 1%nat <-> u <= 16)).
Proof.
  intros Hi Hu.
  destruct (EncodeInt64_tag_sign i Hi) as (t & p & -> & Hp & Hsmall & _).
  destruct (EncodeUint64_tag_size u Hu) as (t' & p' & -> & Hp' & Hsmall' & _).
  cbn [length]. split; (split; [lia|]).
  - rewrite <- Hsmall. destruct p; cbn [length]; split; intros; (reflexivity || discriminate || lia).
  - rewrite <- Hsmall'. destruct p'; cbn [length]; split; intros; (reflexivity || discriminate || lia).
Qed.

Lemma encoded_integer_size_witness :
  (Go.is_int64 (-9) /\ Go.is_uint64 16) /\
  ((1 <= length (EncodeInt64 (-9)) <= 9)%nat /\
   (length (EncodeInt64 (-9)) = 1%nat <-> -8 <= -9 <= 7)) /\
  ((1 <= length (EncodeUint64 16) <= 9)%nat /\
   (length (EncodeUint64 16) = 1%nat <-> 16 <= 16)).
Proof.
  split.
  - unfold Go.is_int64, Go.is_uint64. lia.
  - apply (encoded_integer_size (-9) 16); unfold Go.is_int64, Go.is_uint64; lia.
Defined.

(** X24. How the encodings of different types sort, by their tags alone and
    whatever follows them in a buffer: a boolean below a byte string, a byte
    string below a negative integer, a negative integer below an unsigned
    integer, and an unsigned integer below a signed integer that is not
    negative. *)
Theorem order_across_types (t : bool) (bb eb : list byte) (i u j : Z) (ra rb : list byte) :
  EncodeBytes bb = Returns eb ->
  Go.is_int64 i -> i < 0 -> Go.is_uint64 u -> Go.is_int64 j -> 0 <= j ->
  Go.Compare (EncodeBool t ++ ra) (eb ++ rb) = Lt /\
  Go.Compare (eb ++ ra) (EncodeInt64 i ++ rb) = Lt /\
  Go.Compare (EncodeInt64 i ++ ra) (EncodeUint64 u ++ rb) = Lt /\
  Go.Compare (EncodeUint64 u ++ ra) (EncodeInt64 j ++ rb) = Lt.
Proof.
  intros Hbb Hi Hneg Hu Hj Hpos.
  destruct (EncodeBytes_tag bb eb Hbb) as (tb & pb & -> & Htb).
  destruct (EncodeInt64_tag_sign i Hi) as (ti & p_i & -> & _ & _ & Hti & _).
  destruct (EncodeUint64_tag_size u Hu) as (tu & pu & -> & _ & _ & Htu).
  destruct (EncodeInt64_tag_sign j Hj) as (tj & pj & -> & _ & _ & _ & Htj).
  specialize (Hti Hneg). specialize (Htj Hpos).
  assert (Hbool : EncodeBool t = [byte.of_Z (if t then 15 else 14)])
    by (destruct t; reflexivity).
  rewrite Hbool. cbn [app].
  repeat split; apply Compare_tag_lt; try lia; destruct t; lia.
Qed.

Lemma order_across_types_witness :
  (EncodeBytes [Byte.x64] = Returns [Byte.x11; Byte.x64] /\
   Go.is_int64 (-1) /\ -1 < 0 /\ Go.is_uint64 0 /\ Go.is_int64 0 /\ 0 <= 0) /\
  Go.Compare (EncodeBool true ++ []) ([Byte.x11; Byte.x64] ++ []) = Lt /\
  Go.Compare ([Byte.x11; Byte.x64] ++ []) (EncodeInt64 (-1) ++ []) = Lt /\
  Go.Compare (EncodeInt64 (-1) ++ []) (EncodeUint64 0 ++ []) = Lt /\
  Go.Compare (EncodeUint64 0 ++ []) (EncodeInt64 0 ++ []) = Lt.
Proof.
  split.
  - unfold Go.is_int64, Go.is_uint64. repeat split; try reflexivity; lia.
  - apply (order_across_types true [Byte.x64] [Byte.x11; Byte.x64] (-1) 0 0 [] []);
      unfold Go.is_int64, Go.is_uint64; try reflexivity; lia.
Defined.

(** ** Nil among the values of a tuple *)

Lemma EncodeNils_loop_returns (nilFirst : bool) (xs : list value) (b e : list byte) :
  EncodeNils_loop nilFirst xs b = Returns (e, None) -> exists e', e = b ++ e'.
Proof.
  rewrite EncodeNils_loop_acc.
  destruct (EncodeNils_loop nilFirst xs []) as [[e' [err|]]|msg]; try discriminate.
  intros H. exists e'. congruence.
Qed.

Lemma EncodeNils_step_scalar (nilFirst : bool) (b e : list byte) (x : value) :
  non_nil_scalar x ->
  EncodeNils_step nilFirst b x = Returns (inl e) ->
  exists (t : Z) (p : list byte), e = b ++ byte.of_Z t :: p /\ 0x0E <= t <= 0xEF.
Proof.
  intros Hx H.
  destruct x as [|t|i|i|u|us|bb|bb|]; cbn [non_nil_scalar EncodeNils_step] in *;
    try contradiction.
  - exists (if t then 15 else 14), []. injection H as <-.
    split; [destruct t; reflexivity | destruct t; lia].
  - unfold EncodeInt in H.
    destruct (EncodeInt64_tag (Go.to_int64 i) (to_int64_range i)) as (t & p & Ht & Hr).
    rewrite Ht in H. exists t, p. split; [congruence|lia].
  - destruct (EncodeInt64_tag i Hx) as (t & p & Ht & Hr).
    rewrite Ht in H. exists t, p. split; [congruence|lia].
  - destruct (EncodeUint64_tag u Hx) as (t & p & Ht & Hr).
    rewrite Ht in H. exists t, p. split; [congruence|lia].
  - destruct (EncodeBytes bb) as [e0|msg] eqn:Hbb; [|discriminate]. cbn [bind] in H.
    destruct (EncodeBytes_tag bb e0 Hbb) as (t & p & -> & Hr).
    exists t, p. split; [congruence|lia].
  - destruct (EncodeBytes bb) as [e0|msg] eqn:Hbb; [|discriminate]. cbn [bind] in H.
    destruct (EncodeBytes_tag bb e0 Hbb) as (t & p & -> & Hr).
    exists t, p. split; [congruence|lia].
Qed.

(** X25. Nil among the values of a tuple: of two tuples that agree on the
    values before a position, the one with nil at that position is encoded
    below the one with a boolean, an integer, a byte string or a string
    there when nil is encoded first, and above it when nil is encoded last,
    whatever the values after that position. *)
Theorem nil_position (nilFirst : bool) (pre xs ys : list value) (x : value)
        (e1 e2 : list byte) :
  non_nil_scalar x ->
  EncodeNils nilFirst (pre ++ GoNil :: xs) = Returns (e1, None) ->
  EncodeNils nilFirst (pre ++ x :: ys) = Returns (e2, None) ->
  Go.Compare e1 e2 = if nilFirst then Lt else Gt.
Proof.
  unfold EncodeNils. intros Hx H1 H2. rewrite EncodeNils_loop_app in H1, H2.
  destruct (EncodeNils_loop nilFirst pre []) as [[ep [err|]]|msg]; try discriminate.
  cbn [EncodeNils_loop EncodeNils_step bind] in H1.
  apply EncodeNils_loop_returns in H1 as (r1 & ->).
  cbn [EncodeNils_loop] in H2.
  destruct (EncodeNils_step nilFirst ep x) as [[e|err]|msg] eqn:Hs; cbn [bind] in H2;
    try discriminate.
  apply EncodeNils_loop_returns in H2 as (r2 & ->).
  destruct (EncodeNils_step_scalar nilFirst ep e x Hx Hs) as (t & p & -> & Ht).
  rewrite <- !app_assoc, Compare_app_prefix. cbn [app].
  destruct nilFirst; cbn [EncodeNil NilFirst NilLast app].
  - change (byte.of_Z BB_NIL_FIRST) with (byte.of_Z 0). apply Compare_tag_lt; lia.
  - rewrite Compare_antisym. change (byte.of_Z BB_NIL_LAST) with (byte.of_Z 255).
    rewrite Compare_tag_lt by lia. reflexivity.
Qed.

Lemma nil_position_witness :
  (non_nil_scalar (GoInt 1) /\
   EncodeNils true ([GoInt 0; GoInt 50] ++ GoNil :: [])
   = Returns ([Byte.xe0; Byte.xe8; Byte.x32; Byte.x00], None) /\
   EncodeNils true ([GoInt 0; GoInt 50] ++ GoInt 1 :: [])
   = Returns ([Byte.xe0; Byte.xe8; Byte.x32; Byte.xe1], None)) /\
  Go.Compare [Byte.xe0; Byte.xe8; Byte.x32; Byte.x00] [Byte.xe0; Byte.xe8; Byte.x32; Byte.xe1]
  = if true then Lt else Gt.
Proof.
  split.
  - repeat split; reflexivity.
  - apply (nil_position true [GoInt 0; GoInt 50] [] [] (GoInt 1)).
    + exact I.
    + reflexivity.
    + reflexivity.
Defined.

(** ** Tuples with short byte strings come back *)

Lemma EncodeBytes_short (bb : list byte) :
  short_string bb ->
  EncodeBytes bb = Returns (byte.of_Z (BB_BYTES + Go.len bb) :: bb).
Proof.
  intros [Hl Hb]. rewrite EncodeBytes_direct by exact Hl.
  rewrite lor_BB_BYTES, Hb by (pose proof (len_nonneg bb); lia). reflexivity.
Qed.

Lemma Decode_short (bb rest : list byte) :
  short_string bb ->
  Decode ((byte.of_Z (BB_BYTES + Go.len bb) :: bb) ++ rest) = Returns (GoBytes bb, rest, None).
Proof.
  intros [Hl _]. pose proof (len_nonneg bb) as H0. unfold BB_BYTES. cbn [app].
  rewrite Decode_tag_bytes by (rewrite unsigned_of_Z_small; lia).
  rewrite unsigned_of_Z_small by lia.
  replace (16 + Go.len bb - 16) with (Go.len bb) by lia.
  rewrite len_app.
  replace (Go.len bb + Go.len rest <? Go.len bb) with false
    by (pose proof (len_nonneg rest); zbool).
  apply take_app. reflexivity.
Qed.

Lemma EncodeNils_step_round_trips (nilFirst : bool) (v : value) (b : list byte) :
  round_trips v ->
  EncodeNils_step nilFirst b v = Returns (inl (b ++ encode_one nilFirst v)).
Proof.
  intros H. unfold encode_one.
  destruct v as [|t|i|i|u|us|bb|bb|]; cbn [round_trips plain] in H; try contradiction;
    cbn [EncodeNils_step app]; try reflexivity;
    rewrite (EncodeBytes_short bb H); reflexivity.
Qed.

Lemma Decode_encode_one (nilFirst : bool) (v : value) (rest : list byte) :
  round_trips v ->
  Decode (encode_one nilFirst v ++ rest) = Returns (decoded_as false v, rest, None).
Proof.
  intros H. unfold encode_one.
  destruct v as [|t|i|i|u|us|bb|bb|]; cbn [round_trips plain] in H; try contradiction;
    cbn [EncodeNils_step app decoded_as].
  - apply (Decode_encode_plain nilFirst GoNil). exact I.
  - apply (Decode_encode_plain nilFirst (GoBool t)). exact I.
  - apply (Decode_encode_plain nilFirst (GoInt i)). exact H.
  - apply (Decode_encode_plain nilFirst (GoInt64 i)). exact H.
  - apply (Decode_encode_plain nilFirst (GoUint64 u)). exact H.
  - rewrite (EncodeBytes_short bb H). cbn [bind]. apply Decode_short. exact H.
  - rewrite (EncodeBytes_short bb H). cbn [bind]. apply Decode_short. exact H.
Qed.

Lemma EncodeNils_loop_round_trips (nilFirst : bool) (xs : list value) (b : list byte) :
  Forall round_trips xs ->
  EncodeNils_loop nilFirst xs b = Returns (b ++ flat_map (encode_one nilFirst) xs, None).
Proof.
  intros H. revert b. induction H as [|x xs Hx Hxs IH]; intros b.
  - cbn. rewrite app_nil_r. reflexivity.
  - cbn [EncodeNils_loop flat_map]. rewrite EncodeNils_step_round_trips by exact Hx.
    cbn [bind]. rewrite IH, <- app_assoc. reflexivity.
Qed.

Lemma DecodeAll_loop_round_trips (nilFirst strings : bool) (xs res : list value) :
  Forall round_trips xs ->
  DecodeAll_loop strings (flat_map (encode_one nilFirst) xs) res
  = Returns (res ++ map (decoded_as strings) xs, None).
Proof.
  intros H. revert res. induction H as [|x xs Hx Hxs IH]; intros res.
  - cbn [flat_map map]. rewrite DecodeAll_loop_eq, Decode_nil, app_nil_r. reflexivity.
  - cbn [flat_map map]. rewrite DecodeAll_loop_eq, Decode_encode_one by exact Hx.
    rewrite IH, <- app_assoc. cbn [app].
    replace (handed_out strings (decoded_as false x)) with (decoded_as strings x);
      [reflexivity|].
    destruct x, strings; reflexivity.
Qed.

(** X12. Round trip of a tuple: for a tuple of nil, booleans, integers, and
    byte strings or strings of 0..15 or 32..47 bytes, [DecodeAll] applied to
    the buffer [EncodeNils] returns gives the values back in order: an [int]
    as an [int64], and a byte string or a string as a string when [strings]
    is set and as a byte string otherwise. *)
Theorem DecodeAll_EncodeNils (nilFirst strings : bool) (xs : list value) :
  Forall round_trips xs ->
  exists e : list byte,
    EncodeNils nilFirst xs = Returns (e, None) /\
    DecodeAll strings e = Returns (map (decoded_as strings) xs, None).
Proof.
  intros Hxs. unfold EncodeNils, DecodeAll.
  rewrite EncodeNils_loop_round_trips by assumption. cbn [app].
  eexists. split; [reflexivity|].
  rewrite (DecodeAll_loop_round_trips nilFirst strings xs []) by assumption. reflexivity.
Qed.

Lemma DecodeAll_EncodeNils_witness :
  Forall round_trips [GoInt 10; GoString [Byte.x68; Byte.x69]; GoInt (-100000); GoBool false] /\
  exists e : list byte,
    EncodeNils true [GoInt 10; GoString [Byte.x68; Byte.x69]; GoInt (-100000); GoBool false]
    = Returns (e, None) /\
    DecodeAll true e
    = Returns (map (decoded_as true)
                 [GoInt 10; GoString [Byte.x68; Byte.x69]; GoInt (-100000); GoBool false],
               None).
Proof.
  assert (Hx : Forall round_trips
                 [GoInt 10; GoString [Byte.x68; Byte.x69]; GoInt (-100000); GoBool false]).
  { repeat constructor; cbn; unfold Go.is_int64; try lia; discriminate. }
  split.
  - exact Hx.
  - exact (DecodeAll_EncodeNils true true _ Hx).
Defined.

(** ** The byte strings [Decode] returns *)

Lemma take_GoBytes (s p next : list byte) (n : Z) :
  take GoBytes s n = Returns (GoBytes p, next, None) ->
  s = p ++ next /\ Go.len p = n.
Proof.
  intros H. apply take_prefix in H as (q & -> & Hq & Hv). inversion Hv. auto.
Qed.

(** X26. A byte string [Decode] returns is a piece of the buffer: the
    buffer is a header of 1 to 3 bytes, then the string, then the remainder;
    and the string is at most 65853 bytes long. *)
Theorem Decode_byte_string (b p next : list byte) :
  Decode b = Returns (GoBytes p, next, None) ->
  exists h : list byte,
    b = h ++ p ++ next /\ 1 <= Go.len h <= 3 /\ Go.len p <= 65853.
Proof.
  destruct b as [|x nx]; [discriminate|].
  rewrite Decode_cons. cbn [bind]. cbv zeta. unfold corrupted. intros H.
  repeat (split_if H; try discriminate);
    try (apply take_prefix in H as (q & _ & _ & Hv); discriminate).
  - apply take_GoBytes in H as [-> Hp]. exists [x]. split; [reflexivity|].
    split; [cbn; lia|]. rewrite Hp. pose proof (byte.unsigned_range (byte.of_Z (byte.unsigned x - BB_BYTES))).
    change (2 ^ 8) with 256 in *. lia.
  - destruct nx as [|k nx']; [short_buffer|].
    rewrite index_cons_0, slice_from_cons_1 in H. cbn [bind] in H.
    split_if H; [discriminate|].
    apply take_GoBytes in H as [-> Hp]. exists [x; k]. split; [reflexivity|].
    split; [cbn; lia|]. rewrite Hp. pose proof (byte.unsigned_range k).
    change (2 ^ 8) with 256 in *. lia.
  - destruct nx as [|k1 [|k2 nx']]; try short_buffer.
    rewrite index_cons_0, index_cons_1, slice_from_cons_2 in H. cbn [bind] in H.
    split_if H; [discriminate|].
    apply take_GoBytes in H as [-> Hp]. exists [x; k1; k2]. split; [reflexivity|].
    split; [cbn; lia|]. rewrite Hp.
    pose proof (byte.unsigned_range k1). pose proof (byte.unsigned_range k2).
    change (2 ^ 8) with 256 in *. lia.
Qed.

Lemma Decode_byte_string_witness :
  Decode [Byte.x12; Byte.x68; Byte.x69; Byte.x0f]
  = Returns (GoBytes [Byte.x68; Byte.x69], [Byte.x0f], None) /\
  exists h : list byte,
    [Byte.x12; Byte.x68; Byte.x69; Byte.x0f] = h ++ [Byte.x68; Byte.x69] ++ [Byte.x0f] /\
    1 <= Go.len h <= 3 /\ Go.len [Byte.x68; Byte.x69] <= 65853.
Proof.
  assert (H : Decode [Byte.x12; Byte.x68; Byte.x69; Byte.x0f]
              = Returns (GoBytes [Byte.x68; Byte.x69], [Byte.x0f], None)) by reflexivity.
  split.
  - exact H.
  - exact (Decode_byte_string _ _ _ H).
Defined.

(** ** Tuple ordering with byte strings *)

Lemma EncodeBytes_returns (bb : list byte) :
  Go.len bb <= 65851 + 0xffffffff -> exists e, EncodeBytes bb = Returns e.
Proof.
  intros H. pose proof (len_nonneg bb) as H0.
  destruct (Z_le_dec (Go.len bb) 60) as [H1|H1];
    [|destruct (Z_le_dec (Go.len bb) 316) as [H2|H2];
      [|destruct (Z_le_dec (Go.len bb) 65852) as [H3|H3]]]; eexists.
  - apply EncodeBytes_direct. lia.
  - apply EncodeBytes_ext1. lia.
  - apply EncodeBytes_ext2. lia.
  - apply EncodeBytes_ext4. lia.
Qed.

Lemma EncodeBytes_order_cases (a b ea eb ra rb : list byte) :
  Go.len a = Go.len b \/ (Go.len a < Go.len b /\ 61 <= Go.len b <= 65852) ->
  EncodeBytes a = Returns ea -> EncodeBytes b = Returns eb ->
  Go.Compare (ea ++ ra) (eb ++ rb) =
  match bytes_order a b with Eq => Go.Compare ra rb | c => c end.
Proof.
  intros [Heq|[Hlt Hb]] Ea Eb; unfold bytes_order.
  - assert (Hl : length a = length b) by (unfold Go.len in Heq; lia).
    rewrite Hl, Nat.compare_refl. apply EncodeBytes_same_length; assumption.
  - replace (length a ?= length b)%nat with Lt
      by (symmetry; apply Nat.compare_lt_iff; unfold Go.len in Hlt; lia).
    eapply EncodeBytes_longer; eassumption.
Qed.

Lemma comparable_strings_decide (a b ea eb ra rb : list byte) :
  comparable_strings a b ->
  EncodeBytes a = Returns ea -> EncodeBytes b = Returns eb ->
  Go.Compare (ea ++ ra) (eb ++ rb) =
  match bytes_order a b with Eq => Go.Compare ra rb | c => c end.
Proof.
  intros (_ & _ & [Heq|[[Hlt Hb]|[Hgt Ha]]]) Ea Eb.
  - apply EncodeBytes_order_cases; auto.
  - apply EncodeBytes_order_cases; auto.
  - rewrite Compare_antisym.
    rewrite (EncodeBytes_order_cases b a eb ea rb ra) by auto.
    unfold bytes_order.
    replace (length b ?= length a)%nat with Lt
      by (symmetry; apply Nat.compare_lt_iff; unfold Go.len in Hgt; lia).
    replace (length a ?= length b)%nat with Gt
      by (symmetry; apply Nat.compare_gt_iff; unfold Go.len in Hgt; lia).
    reflexivity.
Qed.

Lemma comparable_encoded (nilFirst : bool) (x y : value) :
  comparable x y ->
  (forall b, EncodeNils_step nilFirst b x = Returns (inl (b ++ encode_one nilFirst x))) /\
  (forall b, EncodeNils_step nilFirst b y = Returns (inl (b ++ encode_one nilFirst y))) /\
  forall ra rb,
    Go.Compare (encode_one nilFirst x ++ ra) (encode_one nilFirst y ++ rb) =
    match value_order x y with Eq => Go.Compare ra rb | c => c end.
Proof.
  intros H. unfold comparable in H.
  assert (Hplain : forall v, plain v ->
            (forall b, EncodeNils_step nilFirst b v = Returns (inl (b ++ encode_one nilFirst v)))
            /\ encode_one nilFirst v = encode_plain nilFirst v).
  { intros v Hv. unfold encode_one.
    destruct v; cbn [plain] in Hv; try contradiction; split; reflexivity. }
  assert (Hstr : forall bb mk, (mk = GoBytes \/ mk = GoString) ->
            Go.len bb <= 65851 + 0xffffffff ->
            exists e, EncodeBytes bb = Returns e /\ encode_one nilFirst (mk bb) = e /\
              forall b, EncodeNils_step nilFirst b (mk bb) = Returns (inl (b ++ e))).
  { intros bb mk Hmk Hl. destruct (EncodeBytes_returns bb Hl) as (e & He).
    exists e. split; [exact He|]. unfold encode_one.
    destruct Hmk as [-> | ->]; cbn [EncodeNils_step]; rewrite He; split; reflexivity. }
  destruct (bytes_of x) as [a|] eqn:Bx, (bytes_of y) as [b|] eqn:By; try contradiction.
  - assert (Hx : exists mk, (mk = GoBytes \/ mk = GoString) /\ x = mk a)
      by (destruct x; try discriminate; inversion Bx; subst; eauto).
    assert (Hy : exists mk, (mk = GoBytes \/ mk = GoString) /\ y = mk b)
      by (destruct y; try discriminate; inversion By; subst; eauto).
    destruct Hx as (mkx & Hmkx & ->), Hy as (mky & Hmky & ->).
    pose proof H as (La & Lb & _).
    destruct (Hstr a mkx Hmkx La) as (ea & Ea & -> & Sa).
    destruct (Hstr b mky Hmky Lb) as (eb & Eb & -> & Sb).
    split; [exact Sa|]. split; [exact Sb|]. intros ra rb.
    rewrite (comparable_strings_decide a b ea eb ra rb H Ea Eb).
    destruct Hmkx as [-> | ->], Hmky as [-> | ->]; reflexivity.
  - destruct H as (Px & Py & Hc).
    destruct (Hplain x Px) as [Sx Ex], (Hplain y Py) as [Sy Ey].
    split; [exact Sx|]. split; [exact Sy|]. intros ra rb.
    rewrite Ex, Ey. apply encode_plain_decides; assumption.
Qed.

(** X27. Tuple ordering with byte strings: for two tuples of one length
    whose values are, position by position, two plain values of one category
    or two byte strings (or strings) of one length or with the longer one of
    61 to 65852 bytes, [EncodeNils] succeeds on both and the unsigned
    lexicographic order of the two buffers is the standard tuple order of
    the values. *)
Theorem Encode_tuple_order_strings (nilFirst : bool) (xs ys : list value) :
  Forall2 comparable xs ys ->
  exists ex ey : list byte,
    EncodeNils nilFirst xs = Returns (ex, None) /\
    EncodeNils nilFirst ys = Returns (ey, None) /\
    Go.Compare ex ey = tuple_order xs ys.
Proof.
  intros H. unfold EncodeNils.
  exists (flat_map (encode_one nilFirst) xs), (flat_map (encode_one nilFirst) ys).
  assert (G : forall bx by_,
            EncodeNils_loop nilFirst xs bx
            = Returns (bx ++ flat_map (encode_one nilFirst) xs, None) /\
            EncodeNils_loop nilFirst ys by_
            = Returns (by_ ++ flat_map (encode_one nilFirst) ys, None)).
  { induction H as [|x y xs ys Hxy Hrest IH]; intros bx by_.
    - cbn. rewrite !app_nil_r. split; reflexivity.
    - destruct (comparable_encoded nilFirst x y Hxy) as (Sx & Sy & _).
      cbn [EncodeNils_loop flat_map]. rewrite Sx, Sy. cbn [bind].
      destruct (IH (bx ++ encode_one nilFirst x) (by_ ++ encode_one nilFirst y)) as [-> ->].
      rewrite <- !app_assoc. split; reflexivity. }
  destruct (G [] []) as [-> ->]. cbn [app]. split; [reflexivity|]. split; [reflexivity|].
  clear G. induction H as [|x y xs ys Hxy Hrest IH].
  - reflexivity.
  - destruct (comparable_encoded nilFirst x y Hxy) as (_ & _ & Hd).
    cbn [flat_map tuple_order]. rewrite Hd, IH. reflexivity.
Qed.

Lemma Encode_tuple_order_strings_witness :
  Forall2 comparable [GoInt 3; GoString [Byte.x63; Byte.x61; Byte.x74]; GoBool false]
                     [GoInt 3; GoString [Byte.x64; Byte.x6f; Byte.x67]; GoBool false] /\
  exists ex ey : list byte,
    EncodeNils true [GoInt 3; GoString [Byte.x63; Byte.x61; Byte.x74]; GoBool false]
    = Returns (ex, None) /\
    EncodeNils true [GoInt 3; GoString [Byte.x64; Byte.x6f; Byte.x67]; GoBool false]
    = Returns (ey, None) /\
    Go.Compare ex ey
    = tuple_order [GoInt 3; GoString [Byte.x63; Byte.x61; Byte.x74]; GoBool false]
                  [GoInt 3; GoString [Byte.x64; Byte.x6f; Byte.x67]; GoBool false].
Proof.
  assert (H : Forall2 comparable
                [GoInt 3; GoString [Byte.x63; Byte.x61; Byte.x74]; GoBool false]
                [GoInt 3; GoString [Byte.x64; Byte.x6f; Byte.x67]; GoBool false]).
  { constructor; [|constructor; [|constructor; [|constructor]]].
    - cbn. unfold Go.is_int64. repeat split; try lia. eexists; split; reflexivity.
    - cbn. unfold comparable_strings, Go.len. cbn. lia.
    - cbn. repeat split. eexists; split; reflexivity. }
  split.
  - exact H.
  - exact (Encode_tuple_order_strings true _ _ H).
Defined.

(** ** Truncated values *)

(** X28. A truncated value is detected: when a buffer is one encoded value
    and nothing more, [Decode] reports every proper prefix of it that is not
    empty as a corrupted buffer. *)
Theorem Decode_truncated (c1 c2 : list byte) (v : value) :
  Decode (c1 ++ c2) = Returns (v, [], None) ->
  c1 <> [] -> c2 <> [] ->
  Decode c1 = Returns (GoNil, [], Some CorruptedBufferError).
Proof.
  intros H H1 H2. pose proof (Decode_total c1) as Ht.
  inversion Ht as [v' next' Hb Hd | Hb Hd | Hb Hd]; symmetry in Hd.
  - exfalso. rewrite (Decode_app c1 c2 v' next' Hd) in H.
    inversion H as [[Hv Hn]]. apply app_eq_nil in Hn as [_ Hn]. contradiction.
  - contradiction.
  - reflexivity.
Qed.

Lemma Decode_truncated_witness :
  (Decode ([Byte.xe9; Byte.x03] ++ [Byte.xe8]) = Returns (GoInt64 1000, [], None) /\
   [Byte.xe9; Byte.x03] <> [] /\ [Byte.xe8] <> []) /\
  Decode [Byte.xe9; Byte.x03] = Returns (GoNil, [], Some CorruptedBufferError).
Proof.
  assert (H : Decode ([Byte.xe9; Byte.x03] ++ [Byte.xe8]) = Returns (GoInt64 1000, [], None))
    by reflexivity.
  split.
  - split; [exact H | split; discriminate].
  - apply (Decode_truncated [Byte.xe9; Byte.x03] [Byte.xe8] (GoInt64 1000) H); discriminate.
Defined.
